(** * EyeSort: word labeller (functions/word_labeller.py)

    A shallow embedding of the two functions of the script,
    [fill_word_labels] (the word-position builder) and
    [find_interest_area] (the interest-area resolver), together with the
    fragments of the Python run time they rest on: [str.split], [str()],
    [len], insertion-ordered [dict], [json.dumps], [ast.literal_eval],
    comparisons between numbers, [min] and [max]. *)

From Stdlib Require Import Decimal.
From Stdlib Require DecimalFacts DecimalPos DecimalZ.
From Stdlib Require Import ZArith QArith Ascii String Bool Lia List.
Import ListNotations.

Local Open Scope Z_scope.

(** ** Python strings *)

Module Py.

(** A Python [str] is a sequence of Unicode code points; [len] counts
    code points. *)
Abbreviation char := N (only parsing).
Abbreviation str := (list N) (only parsing).

Definition chr (a : ascii) : char := N_of_ascii a.

(** Reading of a literal of the development as a Python [str]. *)
Definition lit (s : string) : str := map chr (list_ascii_of_string s).

Definition len (s : str) : Z := Z.of_nat (List.length s).

Definition char_eqb (a b : char) : bool := N.eqb a b.

Fixpoint str_eqb (a b : str) : bool :=
  match a, b with
  | [], [] => true
  | x :: a', y :: b' => char_eqb x y && str_eqb a' b'
  | _, _ => false
  end.

(** The code points [str.split] and [str.isspace] treat as white space. *)
Definition is_space (c : char) : bool :=
  ((9 <=? c) && (c <=? 13) || (28 <=? c) && (c <=? 32)
   || (c =? 133) || (c =? 160) || (c =? 5760)
   || (8192 <=? c) && (c <=? 8202)
   || (c =? 8232) || (c =? 8233) || (c =? 8239) || (c =? 8287)
   || (c =? 12288))%N.

(** [s.split()] without argument: the maximal runs of characters that are
    not white space, in order.  [word] is the run read so far. *)
Fixpoint split_from (word s : str) : list str :=
  match s with
  | [] => match word with [] => [] | _ => [word] end
  | c :: rest =>
      if is_space c
      then match word with
           | [] => split_from [] rest
           | _ => word :: split_from [] rest
           end
      else split_from (word ++ [c]) rest
  end.

Definition split (s : str) : list str := split_from [] s.

(** Decimal digits, most significant first. *)
Fixpoint digits (d : uint) : str :=
  match d with
  | Nil => []
  | D0 d => 48%N :: digits d
  | D1 d => 49%N :: digits d
  | D2 d => 50%N :: digits d
  | D3 d => 51%N :: digits d
  | D4 d => 52%N :: digits d
  | D5 d => 53%N :: digits d
  | D6 d => 54%N :: digits d
  | D7 d => 55%N :: digits d
  | D8 d => 56%N :: digits d
  | D9 d => 57%N :: digits d
  end.

(** [str(z)] and [f"{z}"] for an [int]. *)
Definition str_of_int (z : Z) : str :=
  match Z.to_int z with
  | Decimal.Pos d => digits d
  | Decimal.Neg d => 45%N :: digits d
  end.

(** A [float]: the finite ones are rationals (every double is one), and
    Python compares an [int] with a [float] exactly. *)
Inductive float : Type :=
| Finite (q : Q)
| NaN
| PosInf
| NegInf.

(** The objects a fixation cell and the resolver's result can be. *)
Inductive value : Type :=
| VNone
| VStr (s : str)
| VInt (z : Z)
| VFloat (f : float).

(** The value of a text cell of a row, as pandas hands it over: a string,
    the [nan] of a missing cell, or an integer. *)
Inductive cell : Type :=
| CStr (s : str)
| CNaN
| CInt (z : Z).

(** [str(x)] on a cell. *)
Definition str_of_cell (x : cell) : str :=
  match x with
  | CStr s => s
  | CNaN => lit "nan"
  | CInt z => str_of_int z
  end.

Inductive exn : Type :=
| TypeError
| ValueError.

(** Outcome of a call: a returned object, a raised exception, or
    [Unmodelled] when [ast.literal_eval] is given a text outside the
    fragment of literals embedded below. *)
Inductive outcome (A : Type) : Type :=
| Return (a : A)
| Raise (e : exn)
| Unmodelled.
Arguments Return {A} a.
Arguments Raise {A} e.
Arguments Unmodelled {A}.

(** An insertion-ordered [dict] from labels to pairs of integers. *)
Definition dict : Type := list (str * (Z * Z)).

(** [d[k] = v]: an existing key keeps its place, a new one goes last. *)
Fixpoint dict_set (k : str) (v : Z * Z) (d : dict) : dict :=
  match d with
  | [] => [(k, v)]
  | (k', v') :: d' =>
      if str_eqb k' k then (k', v) :: d' else (k', v') :: dict_set k v d'
  end.

Definition keys (d : dict) : list str := map fst d.
Definition values (d : dict) : list (Z * Z) := map snd d.

End Py.

Import Py.

(** ** The builder: [fill_word_labels] *)

(** offset from the left edge of the screen of where the sentence begins *)
Definition Offset : Z := 281.
(** number of pixels per character *)
Definition PPC : Z := 14.

Record row : Type := {
  beginning : cell;
  pretarget : cell;
  target_word : cell;
  ending : cell
}.

(** The variables of [fill_word_labels] that the closure [word_labeller]
    reads and writes. *)
Record state : Type := {
  word_labels : dict;
  last_word_ending_pos : Z;
  odd_space : Z
}.

Definition initial : state :=
  {| word_labels := []; last_word_ending_pos := Offset; odd_space := 0 |}.

(** [f"{region}.{index}"] *)
Definition label (region index : Z) : str :=
  str_of_int region ++ 46%N :: str_of_int index.

(** The body of the [for] loop of [word_labeller], for one word. *)
Definition label_word (region index : Z) (word : str) (st : state) : state :=
  let key := label region index in
  let start := last_word_ending_pos st in
  let end_ := start + PPC * (len word + odd_space st) in
  {| word_labels := dict_set key (start, end_) (word_labels st);
     last_word_ending_pos := end_;
     odd_space := 1 |}.

(** [for index, word in enumerate(words, start=index)] *)
Fixpoint label_words (region index : Z) (words : list str) (st : state)
  : state :=
  match words with
  | [] => st
  | word :: rest =>
      label_words region (index + 1) rest (label_word region index word st)
  end.

Definition word_labeller (region : Z) (region_sentence : cell) (st : state)
  : state :=
  label_words region 1 (split (str_of_cell region_sentence)) st.

(** The dictionary at line 70, before it is serialized. *)
Definition build_word_labels (r : row) : dict :=
  let st := word_labeller 1 (beginning r) initial in
  let st := word_labeller 2 (pretarget r) st in
  let st := word_labeller 3 (target_word r) st in
  let st := word_labeller 4 (ending r) st in
  word_labels st.

(** *** [json.dumps] on a dictionary of labels *)

Module Json.

Definition hex_digit (d : N) : char :=
  (if d <? 10 then 48 + d else 87 + d)%N.

(** ['{0:04x}'.format(n)] *)
Definition hex4 (n : N) : str :=
  [hex_digit ((n / 4096) mod 16); hex_digit ((n / 256) mod 16);
   hex_digit ((n / 16) mod 16); hex_digit (n mod 16)]%N.

Definition backslash : char := 92%N.
Definition quote : char := 34%N.

Definition u_escape (n : N) : str := backslash :: 117%N :: hex4 n.

(** One character of a string under [ensure_ascii=True]. *)
Definition escape (c : char) : str :=
  (if c =? quote then [backslash; quote]
   else if c =? backslash then [backslash; backslash]
   else if c =? 8 then [backslash; 98]
   else if c =? 12 then [backslash; 102]
   else if c =? 10 then [backslash; 110]
   else if c =? 13 then [backslash; 114]
   else if c =? 9 then [backslash; 116]
   else if (32 <=? c) && (c <=? 126) then [c]
   else if c <? 65536 then u_escape c
   else u_escape (N.lor 55296 (N.land (N.shiftr (c - 65536) 10) 1023))
        ++ u_escape (N.lor 56320 (N.land (c - 65536) 1023)))%N.

Definition dumps_str (s : str) : str :=
  quote :: flat_map escape s ++ [quote].

(** A tuple is written as a JSON array. *)
Definition dumps_pair (v : Z * Z) : str :=
  91%N :: str_of_int (fst v) ++ lit ", " ++ str_of_int (snd v) ++ [93%N].

Definition dumps_item (kv : str * (Z * Z)) : str :=
  dumps_str (fst kv) ++ lit ": " ++ dumps_pair (snd kv).

Fixpoint dumps_items (d : dict) : str :=
  match d with
  | [] => []
  | [kv] => dumps_item kv
  | kv :: rest => dumps_item kv ++ lit ", " ++ dumps_items rest
  end.

Definition dumps (d : dict) : str :=
  123%N :: dumps_items d ++ [125%N].

End Json.

Definition fill_word_labels (r : row) : str :=
  Json.dumps (build_word_labels r).

(** *** [ast.literal_eval] on the text of a dictionary of labels

    The fragment of Python literals embedded: a dictionary display whose
    keys are double-quoted strings of printable ASCII characters without
    backslash and whose values are list or tuple displays of two decimal
    integers, with blanks between the tokens and after the closing brace.
    On a text of the fragment the result is the dictionary Python builds
    (a later duplicate key overwrites the value of the earlier one); on
    any other text the result is [None], where Python raises or builds
    some other object.  Integers are unbounded, as Python's are; the limit
    Python puts on the number of digits of a conversion is far above any
    position a text in memory can reach and is left out. *)

Module Ast.

Notation "'let*' x ':=' a 'in' b" :=
  (match a with Some x => b | None => None end)
  (at level 10, x pattern, a at level 100, b at level 200).

Fixpoint skip_blanks (s : str) : str :=
  match s with
  | c :: rest => if (c =? 32)%N then skip_blanks rest else s
  | [] => []
  end.

Definition expect (c : char) (s : str) : option str :=
  match s with
  | c' :: rest => if (c' =? c)%N then Some rest else None
  | [] => None
  end.

Definition digit_of (c : char) : option (uint -> uint) :=
  (if c =? 48 then Some D0 else if c =? 49 then Some D1
   else if c =? 50 then Some D2 else if c =? 51 then Some D3
   else if c =? 52 then Some D4 else if c =? 53 then Some D5
   else if c =? 54 then Some D6 else if c =? 55 then Some D7
   else if c =? 56 then Some D8 else if c =? 57 then Some D9
   else None)%N.

(** The longest prefix of decimal digits. *)
Fixpoint read_digits (s : str) : uint * str :=
  match s with
  | c :: rest =>
      match digit_of c with
      | Some D => let (d, rest') := read_digits rest in (D d, rest')
      | None => (Nil, s)
      end
  | [] => (Nil, [])
  end.

(** A decimal integer literal has a digit and, unless it is [0], no
    leading zero. *)
Definition canonical (d : uint) : bool :=
  match d with
  | Nil => false
  | D0 Nil => true
  | D0 _ => false
  | _ => true
  end.

Definition unsigned (s : str) : option (Z * str) :=
  let (d, rest) := read_digits s in
  if canonical d then Some (Z.of_uint d, rest) else None.

Definition parse_int (s : str) : option (Z * str) :=
  match s with
  | c :: rest =>
      if (c =? 45)%N
      then let* (z, rest') := unsigned rest in Some (- z, rest')
      else unsigned s
  | [] => None
  end.

Definition plain (c : char) : bool :=
  ((32 <=? c) && (c <=? 126) && negb (c =? Json.quote)
   && negb (c =? Json.backslash))%N.

(** The characters up to the closing quote. *)
Fixpoint read_plain (s : str) : option (str * str) :=
  match s with
  | c :: rest =>
      if (c =? Json.quote)%N then Some ([], rest)
      else if plain c
           then let* (w, rest') := read_plain rest in Some (c :: w, rest')
           else None
  | [] => None
  end.

Definition parse_str (s : str) : option (str * str) :=
  let* s := expect Json.quote s in read_plain s.

(** [[a, b]] or [(a, b)] *)
Definition parse_pair (s : str) : option ((Z * Z) * str) :=
  match s with
  | open :: s =>
      let* close :=
        (if open =? 91 then Some 93 else if open =? 40 then Some 41
         else None)%N in
      let* (a, s) := parse_int (skip_blanks s) in
      let* s := expect 44%N (skip_blanks s) in
      let* (b, s) := parse_int (skip_blanks s) in
      let* s := expect close (skip_blanks s) in
      Some ((a, b), s)
  | [] => None
  end.

Definition parse_item (s : str) : option ((str * (Z * Z)) * str) :=
  let* (k, s) := parse_str s in
  let* s := expect 58%N (skip_blanks s) in
  let* (v, s) := parse_pair (skip_blanks s) in
  Some ((k, v), s).

(** The items after the opening brace, added to [acc] in order; every
    round consumes an item, so the length of the text is fuel enough. *)
Fixpoint parse_items (fuel : nat) (s : str) (acc : dict)
  : option (dict * str) :=
  match fuel with
  | O => None
  | S fuel =>
      let* (kv, s) := parse_item s in
      let acc := dict_set (fst kv) (snd kv) acc in
      match skip_blanks s with
      | c :: s =>
          if (c =? 44)%N then parse_items fuel (skip_blanks s) acc
          else if (c =? 125)%N then Some (acc, s)
          else None
      | [] => None
      end
  end.

Definition literal_eval (positions : str) : option dict :=
  let* s := expect 123%N positions in
  let* (d, s) :=
    match skip_blanks s with
    | c :: s' =>
        if (c =? 125)%N then Some ([], s')
        else parse_items (List.length positions) (c :: s') []
    | [] => None
    end in
  match skip_blanks s with
  | [] => Some d
  | _ :: _ => None
  end.

(** The text does not go on with a digit. *)
Definition stops_digits (s : str) : Prop :=
  match s with
  | [] => True
  | c :: _ => digit_of c = None
  end.

End Ast.

(** ** The resolver: [find_interest_area] *)

Definition bind {A B : Type} (m : outcome A) (k : A -> outcome B)
  : outcome B :=
  match m with
  | Return a => k a
  | Raise e => Raise e
  | Unmodelled => Unmodelled
  end.

Notation "x <- m ;; k" := (bind m (fun x => k))
  (at level 61, m at next level, right associativity).

(** Order of an object against an [int]: [None] when unordered (a
    [nan]); a [str] or [None] object cannot be ordered against a number. *)
Definition compare_int (v : value) (z : Z) : outcome (option comparison) :=
  match v with
  | VInt x => Return (Some (x ?= z))
  | VFloat (Finite q) => Return (Some (q ?= inject_Z z)%Q)
  | VFloat PosInf => Return (Some Gt)
  | VFloat NegInf => Return (Some Lt)
  | VFloat NaN => Return None
  | VStr _ | VNone => Raise TypeError
  end.

(** [v < z] *)
Definition lt_int (v : value) (z : Z) : outcome bool :=
  c <- compare_int v z ;;
  Return match c with Some Lt => true | _ => false end.

(** [v > z], also the reading of [z < v] *)
Definition gt_int (v : value) (z : Z) : outcome bool :=
  c <- compare_int v z ;;
  Return match c with Some Gt => true | _ => false end.

(** [v <= z] *)
Definition le_int (v : value) (z : Z) : outcome bool :=
  c <- compare_int v z ;;
  Return match c with Some Lt | Some Eq => true | _ => false end.

(** [v == z]; never raises *)
Definition eq_int (v : value) (z : Z) : bool :=
  match compare_int v z with
  | Return (Some Eq) => true
  | _ => false
  end.

(** [v == s] for a [str] [s] *)
Definition eq_str (v : value) (s : str) : bool :=
  match v with
  | VStr s' => str_eqb s' s
  | _ => false
  end.

(** [x_min < fixation <= x_max]: the second test only runs when the first
    holds. *)
Definition within (x_min : Z) (fixation : value) (x_max : Z) : outcome bool :=
  b <- gt_int fixation x_min ;;
  if b then le_int fixation x_max else Return false.

(** The [for] loop at lines 86-88; [None] when it ends without a
    [return]. *)
Fixpoint scan (items : dict) (fixation : value) : outcome (option str) :=
  match items with
  | [] => Return None
  | (key, (x_min, x_max)) :: rest =>
      b <- within x_min fixation x_max ;;
      if b then Return (Some key) else scan rest fixation
  end.

Definition all_values_of (word_positions : dict) : list Z :=
  flat_map (fun tup => [fst tup; snd tup]) (values word_positions).

Definition py_min (l : list Z) : outcome Z :=
  match l with
  | [] => Raise ValueError
  | x :: rest => Return (fold_left Z.min rest x)
  end.

Definition py_max (l : list Z) : outcome Z :=
  match l with
  | [] => Raise ValueError
  | x :: rest => Return (fold_left Z.max rest x)
  end.

(** Lines 86-96, on the deserialized dictionary. *)
Definition resolve (word_positions : dict) (fixation : value)
  : outcome value :=
  found <- scan word_positions fixation ;;
  match found with
  | Some key => Return (VStr key)
  | None =>
      let all_values := all_values_of word_positions in
      m <- py_min all_values ;;
      if eq_int fixation m then Return (VStr (lit "1.1"))
      else
        m <- py_min all_values ;;
        lt <- lt_int fixation m ;;
        if lt then Return (VStr (lit "left"))
        else
          M <- py_max all_values ;;
          gt <- gt_int fixation M ;;
          if gt then Return (VStr (lit "right"))
          else Return VNone
  end.

Definition find_interest_area (positions : str) (fixation : value)
  : outcome value :=
  if eq_str fixation (lit ".") then Return fixation
  else
    match Ast.literal_eval positions with
    | Some word_positions => resolve word_positions fixation
    | None => Unmodelled
    end.

(** ** The spec's reading of the builder

    The words of the four regions in order, each with its label, and the
    interval of each at the running cursor. *)

Fixpoint number (region index : Z) (words : list str) : list (str * str) :=
  match words with
  | [] => []
  | word :: rest => (label region index, word) :: number region (index + 1) rest
  end.

Definition region_words (region : Z) (text : cell) : list (str * str) :=
  number region 1 (split (str_of_cell text)).

Definition sentence (r : row) : list (str * str) :=
  region_words 1 (beginning r) ++ region_words 2 (pretarget r)
  ++ region_words 3 (target_word r) ++ region_words 4 (ending r).

Definition width (word : str) (extraSpaceFlag : Z) : Z :=
  PPC * (len word + extraSpaceFlag).

Fixpoint intervals (cursor extraSpaceFlag : Z) (words : list (str * str))
  : dict :=
  match words with
  | [] => []
  | (lbl, word) :: rest =>
      (lbl, (cursor, cursor + width word extraSpaceFlag))
      :: intervals (cursor + width word extraSpaceFlag) 1 rest
  end.

Definition spec_word_positions (r : row) : dict :=
  intervals Offset 0 (sentence r).

(** The cursor and the flag after a run of words. *)
Fixpoint advance (cursor extraSpaceFlag : Z) (words : list (str * str))
  : Z * Z :=
  match words with
  | [] => (cursor, extraSpaceFlag)
  | (_, word) :: rest => advance (cursor + width word extraSpaceFlag) 1 rest
  end.

(** [d.get(k)] *)
Fixpoint dict_get (k : str) (d : dict) : option (Z * Z) :=
  match d with
  | [] => None
  | (k', v) :: d' => if str_eqb k' k then Some v else dict_get k d'
  end.

(** ** Predicates of the statements *)

Definition is_digit (c : char) : Prop := (48 <= c <= 57)%N.

(** A labelled word has a character. *)
Definition word_nonempty (lw : str * str) : Prop := 1 <= len (snd lw).

(** The state reached from cursor [c] and flag [f] once the labelled words
    [ws] are in the dictionary. *)
Definition state_of (c f : Z) (ws : list (str * str)) : state :=
  {| word_labels := intervals c f ws;
     last_word_ending_pos := fst (advance c f ws);
     odd_space := snd (advance c f ws) |}.

(** Every label of [ws] belongs to a region before [region]. *)
Definition labels_below (region : Z) (ws : list (str * str)) : Prop :=
  forall l, In l (map fst ws) -> exists r j, r < region /\ l = label r j.

(** One step of filling a dictionary with items. *)
Definition store (acc : dict) (kv : str * (Z * Z)) : dict :=
  dict_set (fst kv) (snd kv) acc.

(** The fixation is an [int] or a [float]. *)
Definition numeric (v : value) : Prop :=
  match v with
  | VInt _ | VFloat _ => True
  | VNone | VStr _ => False
  end.

(** [v < z], [v == z] and [v > z] hold. *)
Definition below (v : value) (z : Z) : Prop :=
  compare_int v z = Return (Some Lt).
Definition equals (v : value) (z : Z) : Prop :=
  compare_int v z = Return (Some Eq).
Definition above (v : value) (z : Z) : Prop :=
  compare_int v z = Return (Some Gt).

(** [x_min < v <= x_max] holds. *)
Definition inside (x_min : Z) (v : value) (x_max : Z) : Prop :=
  above v x_min /\ (below v x_max \/ equals v x_max).

(** [m] is the smallest, [M] the largest element of [l]. *)
Definition is_min (m : Z) (l : list Z) : Prop :=
  In m l /\ forall x, In x l -> m <= x.

Definition is_max (M : Z) (l : list Z) : Prop :=
  In M l /\ forall x, In x l -> x <= M.

(** An outcome that carries an explicit marker: a returned string. *)
Definition explicit_marker (o : outcome value) : Prop :=
  exists s, o = Return (VStr s).

(** ** Sample inputs *)

(** The sentence of the header of the script. *)
Definition sample_row : row :=
  {| beginning := CStr (lit "I did not");
     pretarget := CStr (lit "go to");
     target_word := CStr (lit "school");
     ending := CStr (lit "and stayed home.") |}.

(** A row whose regions hold no word. *)
Definition blank_row : row :=
  {| beginning := CStr (lit "");
     pretarget := CStr (lit "  ");
     target_word := CStr (lit "");
     ending := CStr (lit " ") |}.

(** Two words with ten pixels between them. *)
Definition gap_map : dict :=
  [(lit "1.1", (0, 10)); (lit "1.2", (20, 30))].

Definition gap_positions : str := Json.dumps gap_map.

(** ** The driver: [main]

    The table read from [FILENAME] is a list of rows in order; what
    [to_csv] receives, the name of the output file and the table with its
    three new columns, is the result.  The columns the script does not
    read are carried along untouched and are left out. *)

Definition FILENAME : str := lit "RLGL_FR_reg2.xlsx".

(** [s.split(sep)] for a separator of one character: the pieces between
    the occurrences of [sep], empty ones included.  [piece] is the piece
    read so far. *)
Fixpoint split_on_from (sep : char) (piece s : str) : list str :=
  match s with
  | [] => [piece]
  | c :: rest =>
      if (c =? sep)%N then piece :: split_on_from sep [] rest
      else split_on_from sep (piece ++ [c]) rest
  end.

Definition split_on (sep : char) (s : str) : list str :=
  split_on_from sep [] s.

(** [sep.join(l)] *)
Fixpoint join (sep : str) (l : list str) : str :=
  match l with
  | [] => []
  | [x] => x
  | x :: rest => x ++ sep ++ join sep rest
  end.

(** [".".join(name.split(".")[:-1]) + "_With_IA.tsv"] *)
Definition output_filename (name : str) : str :=
  join (lit ".") (removelast (split_on 46%N name)) ++ lit "_With_IA.tsv".

(** A row of the input table: the four text regions and the two
    fixation cells. *)
Record fixation_row : Type := {
  text : row;
  CURRENT_FIX_X : value;
  NEXT_FIX_X : value
}.

(** A row of the output table. *)
Record labelled_row : Type := {
  source : fixation_row;
  WordPositions : str;
  CURRENT_FIX_INTEREST_AREA_ID : value;
  NEXT_FIX_INTEREST_AREA_ID : value
}.

(** [DataFrame.apply(f, axis=1)]: [f] on every row in order; the first
    exception ends the call. *)
Fixpoint apply {A B : Type} (f : A -> outcome B) (rows : list A)
  : outcome (list B) :=
  match rows with
  | [] => Return []
  | r :: rest =>
      b <- f r ;;
      bs <- apply f rest ;;
      Return (b :: bs)
  end.

(** Line 101: the column [WordPositions] of a row. *)
Definition add_positions (r : fixation_row) : outcome (fixation_row * str) :=
  Return (r, fill_word_labels (text r)).

(** Lines 103-106: the column [CURRENT_FIX_INTEREST_AREA_ID] of a row,
    from the row's own [WordPositions]. *)
Definition add_current (rp : fixation_row * str)
  : outcome (fixation_row * str * value) :=
  ia <- find_interest_area (snd rp) (CURRENT_FIX_X (fst rp)) ;;
  Return (rp, ia).

(** Lines 108-110: the column [NEXT_FIX_INTEREST_AREA_ID] of a row. *)
Definition add_next (rpc : fixation_row * str * value)
  : outcome labelled_row :=
  ia <- find_interest_area (snd (fst rpc)) (NEXT_FIX_X (fst (fst rpc))) ;;
  Return {| source := fst (fst rpc);
            WordPositions := snd (fst rpc);
            CURRENT_FIX_INTEREST_AREA_ID := snd rpc;
            NEXT_FIX_INTEREST_AREA_ID := ia |}.

(** Lines 99-113.  Each new column is computed for the whole table before
    the next statement runs.  On a table without rows [apply] does not
    call the function and what pandas assigns depends on its version:
    that case is [Unmodelled]. *)
Definition main (RLGL : list fixation_row)
  : outcome (str * list labelled_row) :=
  match RLGL with
  | [] => Unmodelled
  | _ :: _ =>
      positions <- apply add_positions RLGL ;;
      current <- apply add_current positions ;;
      next <- apply add_next current ;;
      Return (output_filename FILENAME, next)
  end.

(** ** Further predicates *)

(** The words of a row, all regions together. *)
Definition all_words (r : row) : list str := map snd (sentence r).

(** The pixel where the sentence, its words joined by single blanks,
    ends. *)
Definition right_edge (r : row) : Z :=
  Offset + PPC * len (join (lit " ") (all_words r)).

(** The number of words of a region; regions are numbered 1 to 4. *)
Definition word_count (r : row) (region : Z) : Z :=
  if region =? 1
  then Z.of_nat (List.length (split (str_of_cell (beginning r))))
  else if region =? 2
  then Z.of_nat (List.length (split (str_of_cell (pretarget r))))
  else if region =? 3
  then Z.of_nat (List.length (split (str_of_cell (target_word r))))
  else if region =? 4
  then Z.of_nat (List.length (split (str_of_cell (ending r))))
  else 0.

(** The characters of a run of words, each counted with the blank before
    it. *)
Fixpoint spaced (words : list str) : Z :=
  match words with
  | [] => 0
  | w :: rest => len w + 1 + spaced rest
  end.

(** A number that is not a [nan]. *)
Definition ordered (v : value) : Prop :=
  numeric v /\ v <> VFloat NaN.

(** The fixation a row's own map can resolve: the marker ".", or a number
    when the row has a word. *)
Definition resolvable (r : row) (v : value) : Prop :=
  v = VStr (lit ".") \/ (numeric v /\ build_word_labels r <> []).

Definition row_ok (r : fixation_row) : Prop :=
  resolvable (text r) (CURRENT_FIX_X r) /\ resolvable (text r) (NEXT_FIX_X r).

(** The row a [CURRENT_FIX_INTEREST_AREA_ID] was computed for. *)
Definition current_of (r : fixation_row)
  (c : fixation_row * str * value) : Prop :=
  fst c = (r, fill_word_labels (text r))
  /\ find_interest_area (fill_word_labels (text r)) (CURRENT_FIX_X r)
     = Return (snd c).

(** The output row of an input row: its own map and the two fixations
    resolved against it. *)
Definition labelled (r : fixation_row) (out : labelled_row) : Prop :=
  source out = r
  /\ WordPositions out = fill_word_labels (text r)
  /\ find_interest_area (fill_word_labels (text r)) (CURRENT_FIX_X r)
     = Return (CURRENT_FIX_INTEREST_AREA_ID out)
  /\ find_interest_area (fill_word_labels (text r)) (NEXT_FIX_X r)
     = Return (NEXT_FIX_INTEREST_AREA_ID out).

(** A table with a row that has no word and a numeric fixation. *)
Definition blank_table : list fixation_row :=
  [ {| text := sample_row; CURRENT_FIX_X := VInt 300;
       NEXT_FIX_X := VStr (lit ".") |};
    {| text := blank_row; CURRENT_FIX_X := VStr (lit ".");
       NEXT_FIX_X := VInt 300 |} ].

Definition sample_table : list fixation_row :=
  [ {| text := sample_row; CURRENT_FIX_X := VInt 300;
       NEXT_FIX_X := VFloat (Finite (821 # 2)) |};
    {| text := sample_row; CURRENT_FIX_X := VStr (lit ".");
       NEXT_FIX_X := VInt 100 |} ].

(** A row whose beginning region is blank. *)
Definition headless_row : row :=
  {| beginning := CStr (lit " ");
     pretarget := CStr (lit "go to");
     target_word := CStr (lit "school");
     ending := CStr (lit "") |}.

(** ** Strings and decimal numerals *)

Lemma str_eqb_eq (a b : str) : str_eqb a b = true <-> a = b.
Proof.
  revert b; induction a as [|x a IH]; intros [|y b]; simpl;
    try (split; [discriminate | congruence]); [tauto|].
  unfold char_eqb. rewrite andb_true_iff, N.eqb_eq, IH.
  split; [intros [-> ->]; reflexivity | intros H; inversion H; auto].
Qed.

Lemma str_eqb_refl (a : str) : str_eqb a a = true.
Proof. apply str_eqb_eq; reflexivity. Qed.

Lemma str_eqb_neq (a b : str) : a <> b -> str_eqb a b = false.
Proof.
  intros H; destruct (str_eqb a b) eqn:E; [|reflexivity].
  apply str_eqb_eq in E; contradiction.
Qed.

Lemma split_from_words (s word : str) :
  Forall (fun w => w <> []) (split_from word s).
Proof.
  revert word; induction s as [|c s IH]; intros word; simpl.
  - destruct word; constructor; [discriminate | constructor].
  - destruct (is_space c); [|apply IH].
    destruct word; [apply IH|]. constructor; [discriminate | apply IH].
Qed.

Lemma split_words (s : str) : Forall (fun w => 1 <= len w) (split s).
Proof.
  eapply Forall_impl; [|apply split_from_words].
  intros [|c w] H; [congruence|]. unfold len; simpl List.length; lia.
Qed.

Lemma split_from_nonempty (s word : str) :
  word <> [] -> split_from word s <> [].
Proof.
  revert word; induction s as [|c s IH]; intros word H; simpl.
  - destruct word; congruence.
  - destruct (is_space c).
    + destruct word; congruence.
    + apply IH. destruct word; discriminate.
Qed.

Lemma split_nil (s : str) : split s = [] <-> forallb is_space s = true.
Proof.
  unfold split; induction s as [|c s IH]; simpl; [tauto|].
  destruct (is_space c) eqn:E; simpl; [exact IH|].
  split; [|discriminate].
  intros H; exfalso; revert H; apply split_from_nonempty; discriminate.
Qed.

Lemma digits_chars (d : uint) : Forall is_digit (digits d).
Proof.
  induction d; simpl; constructor; auto; unfold is_digit; lia.
Qed.

Lemma digits_inj (d d' : uint) : digits d = digits d' -> d = d'.
Proof.
  revert d'; induction d; intros d'; destruct d'; simpl; intros H;
    try discriminate; try reflexivity;
    injection H as H; f_equal; auto.
Qed.

Lemma digits_not_minus (d : uint) (s : str) : digits d <> 45%N :: s.
Proof.
  intros H. pose proof (digits_chars d) as F. rewrite H in F.
  inversion F as [|? ? D]; unfold is_digit in D; lia.
Qed.

Lemma str_of_int_inj (z z' : Z) : str_of_int z = str_of_int z' -> z = z'.
Proof.
  unfold str_of_int; intros H. apply DecimalZ.to_int_inj.
  destruct (Z.to_int z) as [d|d], (Z.to_int z') as [d'|d'].
  - f_equal; apply digits_inj; assumption.
  - exfalso; exact (digits_not_minus _ _ H).
  - exfalso; symmetry in H; exact (digits_not_minus _ _ H).
  - injection H as H; f_equal; apply digits_inj; assumption.
Qed.

Lemma str_of_int_chars (z : Z) :
  Forall (fun c => c = 45%N \/ is_digit c) (str_of_int z).
Proof.
  unfold str_of_int; destruct (Z.to_int z) as [d|d];
    [|constructor; [left; reflexivity|]];
    (eapply Forall_impl; [|apply digits_chars]); intros c H; right; exact H.
Qed.

Lemma str_of_int_no_dot (z : Z) : ~ In 46%N (str_of_int z).
Proof.
  intros H. pose proof (str_of_int_chars z) as F.
  rewrite Forall_forall in F. destruct (F _ H) as [E|E];
    [discriminate | unfold is_digit in E; lia].
Qed.

(** A text is cut at its first dot in one way only. *)
Lemma cut_unique (c : char) (a a' b b' : str) :
  ~ In c a -> ~ In c a' -> a ++ c :: b = a' ++ c :: b' -> a = a' /\ b = b'.
Proof.
  revert a'; induction a as [|x a IH]; intros [|y a'] Ha Ha' H; simpl in *.
  - injection H as ->; auto.
  - injection H as -> _; exfalso; apply Ha'; left; reflexivity.
  - injection H as -> _; exfalso; apply Ha; left; reflexivity.
  - injection H as -> H. destruct (IH a') as [-> ->]; auto.
Qed.

Lemma label_inj (region index region' index' : Z) :
  label region index = label region' index' ->
  region = region' /\ index = index'.
Proof.
  unfold label; intros H.
  apply cut_unique in H; try apply str_of_int_no_dot.
  destruct H as [H1 H2]; split; apply str_of_int_inj; assumption.
Qed.

(** ** The builder computes the spec's intervals *)

Lemma dict_set_fresh (k : str) (v : Z * Z) (d : dict) :
  ~ In k (keys d) -> dict_set k v d = d ++ [(k, v)].
Proof.
  induction d as [|[k' v'] d IH]; simpl; intros H; [reflexivity|].
  rewrite str_eqb_neq by (intros ->; apply H; left; reflexivity).
  rewrite IH by (intros F; apply H; right; exact F). reflexivity.
Qed.

Lemma keys_intervals (ws : list (str * str)) (c f : Z) :
  keys (intervals c f ws) = map fst ws.
Proof.
  revert c f; induction ws as [|[l w] ws IH]; intros c f; simpl;
    [reflexivity|]. f_equal; apply IH.
Qed.

Lemma intervals_app (ws ws' : list (str * str)) (c f : Z) :
  intervals c f (ws ++ ws')
  = intervals c f ws
    ++ intervals (fst (advance c f ws)) (snd (advance c f ws)) ws'.
Proof.
  revert c f; induction ws as [|[l w] ws IH]; intros c f; simpl;
    [reflexivity|]. f_equal; apply IH.
Qed.

Lemma advance_app (ws ws' : list (str * str)) (c f : Z) :
  advance c f (ws ++ ws')
  = advance (fst (advance c f ws)) (snd (advance c f ws)) ws'.
Proof.
  revert c f; induction ws as [|[l w] ws IH]; intros c f; simpl;
    [reflexivity|]. apply IH.
Qed.

Lemma state_of_snoc (c f region index : Z) (ws : list (str * str)) (w : str) :
  ~ In (label region index) (map fst ws) ->
  label_word region index w (state_of c f ws)
  = state_of c f (ws ++ [(label region index, w)]).
Proof.
  intros H. unfold label_word, state_of; simpl.
  rewrite dict_set_fresh by (rewrite keys_intervals; exact H).
  rewrite intervals_app, advance_app; simpl. reflexivity.
Qed.

Lemma number_labels (words : list str) (region index : Z) (l : str) :
  In l (map fst (number region index words)) ->
  exists j, index <= j /\ l = label region j.
Proof.
  revert index; induction words as [|w words IH]; intros index; simpl;
    [tauto|].
  intros [<-|H]; [exists index; split; [lia | reflexivity]|].
  destruct (IH _ H) as (j & Hj & ->). exists j; split; [lia | reflexivity].
Qed.

Lemma label_words_spec (words : list str) (region index c f : Z)
  (ws : list (str * str)) :
  (forall j, index <= j -> ~ In (label region j) (map fst ws)) ->
  label_words region index words (state_of c f ws)
  = state_of c f (ws ++ number region index words).
Proof.
  revert index ws; induction words as [|w words IH]; intros index ws H; simpl.
  - rewrite app_nil_r; reflexivity.
  - rewrite state_of_snoc by (apply H; lia).
    rewrite IH.
    + rewrite <- app_assoc; reflexivity.
    + intros j Hj. rewrite map_app, in_app_iff; simpl.
      intros [F|[F|[]]]; [apply (H j); [lia | exact F]|].
      apply label_inj in F; lia.
Qed.

Lemma word_labeller_spec (region next c f : Z) (text : cell)
  (ws : list (str * str)) :
  region < next ->
  labels_below region ws ->
  word_labeller region text (state_of c f ws)
  = state_of c f (ws ++ region_words region text)
  /\ labels_below next (ws ++ region_words region text).
Proof.
  intros Hn H; split.
  - apply label_words_spec. intros j _ F.
    destruct (H _ F) as (r & j' & Hr & E). apply label_inj in E; lia.
  - intros l. rewrite map_app, in_app_iff. intros [F|F].
    + destruct (H _ F) as (r & j & Hr & ->). exists r, j; split; [lia|auto].
    + apply number_labels in F. destruct F as (j & _ & ->).
      exists region, j; split; [lia | reflexivity].
Qed.

Lemma build_word_labels_spec (r : row) :
  build_word_labels r = spec_word_positions r.
Proof.
  unfold build_word_labels, spec_word_positions, sentence.
  change initial with (state_of Offset 0 []).
  assert (H0 : labels_below 1 []) by (intros l []).
  destruct (word_labeller_spec 1 2 Offset 0 (beginning r) [] eq_refl H0)
    as [-> H1].
  destruct (word_labeller_spec 2 3 Offset 0 (pretarget r) _ eq_refl H1)
    as [-> H2].
  destruct (word_labeller_spec 3 4 Offset 0 (target_word r) _ eq_refl H2)
    as [-> H3].
  destruct (word_labeller_spec 4 5 Offset 0 (ending r) _ eq_refl H3)
    as [-> _].
  simpl. rewrite <- !app_assoc. reflexivity.
Qed.

(** *** Shape of the intervals *)

Lemma number_nonempty (words : list str) (region index : Z) :
  Forall (fun w => 1 <= len w) words ->
  Forall word_nonempty (number region index words).
Proof.
  revert index; induction words as [|w words IH]; intros index H; simpl;
    [constructor|]. inversion H; subst. constructor; [assumption | auto].
Qed.

Lemma sentence_nonempty (r : row) : Forall word_nonempty (sentence r).
Proof.
  unfold sentence, region_words.
  repeat (apply Forall_app; split); apply number_nonempty, split_words.
Qed.

Lemma width_pos (w : str) (f : Z) : 1 <= len w -> 0 <= f -> 0 < width w f.
Proof. unfold width, PPC; lia. Qed.

(** Consecutive intervals abut. *)
Lemma intervals_abut (ws : list (str * str)) (c f : Z) (i : nat)
  (k k' : str) (a b a' b' : Z) :
  nth_error (intervals c f ws) i = Some (k, (a, b)) ->
  nth_error (intervals c f ws) (S i) = Some (k', (a', b')) ->
  b = a'.
Proof.
  revert c f i; induction ws as [|[l w] ws IH]; intros c f i; simpl;
    [destruct i; discriminate|].
  destruct i as [|i]; simpl.
  - intros H; injection H as _ _ <-.
    destruct ws as [|[l' w'] ws]; simpl; [discriminate|].
    intros H; injection H as _ <- _; reflexivity.
  - apply IH.
Qed.

Lemma intervals_first (ws : list (str * str)) (c f : Z) (k : str) (a b : Z) :
  nth_error (intervals c f ws) 0 = Some (k, (a, b)) -> a = c.
Proof.
  destruct ws as [|[l w] ws]; simpl; [discriminate|].
  intros H; injection H as _ <- _; reflexivity.
Qed.

(** Every interval lies at or after the cursor and is not empty, and the
    intervals before a given one end at or before its start. *)
Lemma intervals_ordered (ws : list (str * str)) (c f : Z) :
  Forall word_nonempty ws -> 0 <= f ->
  forall pre k a b post,
    intervals c f ws = pre ++ (k, (a, b)) :: post ->
    c <= a /\ a < b
    /\ forall k' a' b', In (k', (a', b')) pre -> c <= a' /\ a' < b' /\ b' <= a.
Proof.
  revert c f; induction ws as [|[l w] ws IH]; intros c f Hw Hf pre k a b post;
    simpl; [destruct pre; discriminate|].
  inversion Hw as [|? ? Hw1 Hw2]; subst.
  pose proof (width_pos w f Hw1 Hf) as Hpos.
  destruct pre as [|p pre]; simpl; intros H; inversion H as [[H1 H2]].
  - subst. split; [lia|]. split; [lia|]. intros ? ? ? [].
  - destruct (IH _ 1 Hw2 ltac:(lia) _ _ _ _ _ H2) as (Ha & Hab & Hpre).
    split; [lia|]. split; [lia|].
    intros k' a' b' [E|E].
    + inversion E; subst; lia.
    + destruct (Hpre _ _ _ E); lia.
Qed.

(** ** Order between a fixation and the endpoints *)

(** A number is a ratio of integers, an infinity or a [nan]. *)
Lemma compare_int_cases (v : value) :
  numeric v ->
  (exists n d, 0 < d /\ forall z, compare_int v z = Return (Some (n ?= z * d)))
  \/ (forall z, compare_int v z = Return (Some Gt))
  \/ (forall z, compare_int v z = Return (Some Lt))
  \/ (forall z, compare_int v z = Return None).
Proof.
  destruct v as [| |x|[[n d]| | |]]; simpl; intros Hv; try contradiction;
    auto; left.
  - exists x, 1; split; [lia|]. intros z; rewrite Z.mul_1_r; reflexivity.
  - exists n, (Z.pos d); split; [lia|]. intros z.
    unfold Qcompare; simpl. rewrite Z.mul_1_r; reflexivity.
Qed.

Ltac order_cases v Hv :=
  unfold below, equals, above in *;
  destruct (compare_int_cases v Hv) as [(?n & ?d & ?Hd & E)|[E|[E|E]]];
  repeat match goal with
         | H : compare_int v _ = _ |- _ => rewrite E in H
         | |- context [compare_int v _] => rewrite E
         end;
  try congruence;
  repeat match goal with
         | H : Return (Some _) = Return (Some _) |- _ =>
             injection H as H
         | H : (_ ?= _) = Lt |- _ => rewrite Z.compare_lt_iff in H
         | H : (_ ?= _) = Eq |- _ => rewrite Z.compare_eq_iff in H
         | H : (_ ?= _) = Gt |- _ => rewrite Z.compare_gt_iff in H
         end.

Ltac order_goal :=
  f_equal; f_equal;
  first [ apply Z.compare_lt_iff | apply Z.compare_eq_iff
        | apply Z.compare_gt_iff ]; nia.

Lemma above_le (v : value) (a a' : Z) :
  numeric v -> above v a -> a' <= a -> above v a'.
Proof. intros Hv H L. order_cases v Hv. order_goal. Qed.

Lemma below_le (v : value) (a a' : Z) :
  numeric v -> below v a -> a <= a' -> below v a'.
Proof. intros Hv H L. order_cases v Hv. order_goal. Qed.

Lemma equals_lt (v : value) (a a' : Z) :
  numeric v -> equals v a -> a < a' -> below v a'.
Proof. intros Hv H L. order_cases v Hv. order_goal. Qed.

Lemma equals_gt (v : value) (a a' : Z) :
  numeric v -> equals v a -> a' < a -> above v a'.
Proof. intros Hv H L. order_cases v Hv. order_goal. Qed.

Lemma not_above_ge (v : value) (m a : Z) :
  numeric v -> below v m \/ equals v m -> m <= a -> ~ above v a.
Proof.
  intros Hv [H|H] L F.
  - pose proof (below_le v m a Hv H L) as B. unfold below, above in *.
    congruence.
  - destruct (Z.eq_dec m a) as [->|N].
    + unfold equals, above in *; congruence.
    + pose proof (equals_lt v m a Hv H ltac:(lia)) as B.
      unfold below, above in *; congruence.
Qed.

Lemma above_int (x z : Z) : above (VInt x) z <-> z < x.
Proof.
  unfold above; simpl. rewrite <- Z.compare_gt_iff.
  split; [intros H; injection H as H; exact H | intros ->; reflexivity].
Qed.

Lemma below_int (x z : Z) : below (VInt x) z <-> x < z.
Proof.
  unfold below; simpl. rewrite <- Z.compare_lt_iff.
  split; [intros H; injection H as H; exact H | intros ->; reflexivity].
Qed.

Lemma equals_int (x z : Z) : equals (VInt x) z <-> x = z.
Proof.
  unfold equals; simpl. rewrite <- Z.compare_eq_iff.
  split; [intros H; injection H as H; exact H | intros ->; reflexivity].
Qed.

Lemma numeric_not_dot (v : value) (s : str) : numeric v -> eq_str v s = false.
Proof. destruct v; simpl; tauto. Qed.

Lemma numeric_compare (v : value) (z : Z) :
  numeric v -> exists c, compare_int v z = Return c.
Proof. destruct v as [| |x|[q| | |]]; simpl; try tauto; eauto. Qed.

(** On a number the interval test returns, and says whether the fixation
    is inside. *)
Lemma within_inside (v : value) (a b : Z) :
  numeric v -> inside a v b -> within a v b = Return true.
Proof.
  intros Hv [Ha Hb]. unfold within, gt_int, le_int, above, below, equals in *.
  rewrite Ha; simpl. destruct Hb as [-> | ->]; reflexivity.
Qed.

Lemma within_outside (v : value) (a b : Z) :
  numeric v -> ~ inside a v b -> within a v b = Return false.
Proof.
  intros Hv H. unfold inside, above, below, equals in H.
  unfold within, gt_int, le_int.
  destruct (numeric_compare v a Hv) as [ca Ea].
  destruct (numeric_compare v b Hv) as [cb Eb].
  rewrite Ea in *; simpl. destruct ca as [[]|]; try reflexivity.
  rewrite Eb in *; simpl. destruct cb as [[]|]; try reflexivity;
    exfalso; apply H; auto.
Qed.

Lemma scan_outside (d : dict) (v : value) :
  numeric v ->
  (forall k a b, In (k, (a, b)) d -> ~ inside a v b) ->
  scan d v = Return None.
Proof.
  intros Hv; induction d as [|[k [a b]] d IH]; intros H; simpl;
    [reflexivity|].
  rewrite within_outside by (auto; apply (H k); left; reflexivity); simpl.
  apply IH. intros k' a' b' F; apply (H k'); right; exact F.
Qed.

Lemma scan_first (pre post : dict) (k : str) (a b : Z) (v : value) :
  numeric v ->
  (forall k' a' b', In (k', (a', b')) pre -> ~ inside a' v b') ->
  inside a v b ->
  scan (pre ++ (k, (a, b)) :: post) v = Return (Some k).
Proof.
  intros Hv; induction pre as [|[k' [a' b']] pre IH]; intros H Hin; simpl.
  - rewrite within_inside by assumption; reflexivity.
  - rewrite within_outside by (auto; apply (H k'); left; reflexivity); simpl.
    apply IH; [|assumption].
    intros k2 a2 b2 F; apply (H k2); right; exact F.
Qed.

(** ** Smallest and largest endpoint *)

Lemma fold_min (l : list Z) (x : Z) : is_min (fold_left Z.min l x) (x :: l).
Proof.
  revert x; induction l as [|y l IH]; intros x; simpl.
  - split; [left; reflexivity|]. intros z [<-|[]]; lia.
  - destruct (IH (Z.min x y)) as [I L]. split.
    + destruct I as [I|I]; [|right; right; exact I].
      destruct (Z.min_spec x y) as [[_ E]|[_ E]];
        [left | right; left]; congruence.
    + intros z [<-|[<-|F]].
      * specialize (L (Z.min x y) (or_introl eq_refl)); lia.
      * specialize (L (Z.min x y) (or_introl eq_refl)); lia.
      * apply L; right; exact F.
Qed.

Lemma fold_max (l : list Z) (x : Z) : is_max (fold_left Z.max l x) (x :: l).
Proof.
  revert x; induction l as [|y l IH]; intros x; simpl.
  - split; [left; reflexivity|]. intros z [<-|[]]; lia.
  - destruct (IH (Z.max x y)) as [I L]. split.
    + destruct I as [I|I]; [|right; right; exact I].
      destruct (Z.max_spec x y) as [[_ E]|[_ E]];
        [right; left | left]; congruence.
    + intros z [<-|[<-|F]].
      * specialize (L (Z.max x y) (or_introl eq_refl)); lia.
      * specialize (L (Z.max x y) (or_introl eq_refl)); lia.
      * apply L; right; exact F.
Qed.

Lemma py_min_is_min (m : Z) (l : list Z) : is_min m l -> py_min l = Return m.
Proof.
  intros [I L]. destruct l as [|x l]; [destruct I|]. simpl; f_equal.
  destruct (fold_min l x) as [I' L']. specialize (L _ I'). specialize (L' _ I).
  lia.
Qed.

Lemma py_max_is_max (M : Z) (l : list Z) : is_max M l -> py_max l = Return M.
Proof.
  intros [I L]. destruct l as [|x l]; [destruct I|]. simpl; f_equal.
  destruct (fold_max l x) as [I' L']. specialize (L _ I'). specialize (L' _ I).
  lia.
Qed.

Lemma in_all_values (d : dict) (k : str) (a b : Z) :
  In (k, (a, b)) d -> In a (all_values_of d) /\ In b (all_values_of d).
Proof.
  unfold all_values_of, values. intros H.
  split; apply in_flat_map; exists (a, b);
    (split; [apply (in_map snd) in H; exact H | simpl; auto]).
Qed.

Lemma all_values_max (d : dict) (m : Z) :
  is_min m (all_values_of d) -> exists M, is_max M (all_values_of d) /\ m <= M.
Proof.
  intros [I L]. destruct (all_values_of d) as [|x l] eqn:E; [destruct I|].
  exists (fold_left Z.max l x). split; [apply fold_max|].
  destruct (fold_max l x) as [_ L']. apply L'; exact I.
Qed.

Lemma is_max_min (l : list Z) (M : Z) :
  is_max M l -> exists m, is_min m l /\ m <= M.
Proof.
  intros [I L]. destruct l as [|x l]; [destruct I|].
  exists (fold_left Z.min l x). split; [apply fold_min|].
  destruct (fold_min l x) as [_ L']. apply L'; exact I.
Qed.

(** ** The paths of the resolver on a number *)

Lemma eq_int_true (v : value) (z : Z) : equals v z -> eq_int v z = true.
Proof. unfold equals, eq_int; intros ->; reflexivity. Qed.

Lemma eq_int_false (v : value) (z : Z) : ~ equals v z -> eq_int v z = false.
Proof.
  unfold equals, eq_int; intros H.
  destruct (compare_int v z) as [[[]|]| |]; try reflexivity. congruence.
Qed.

Lemma lt_int_true (v : value) (z : Z) : below v z -> lt_int v z = Return true.
Proof. unfold below, lt_int; intros ->; reflexivity. Qed.

Lemma lt_int_false (v : value) (z : Z) :
  numeric v -> ~ below v z -> lt_int v z = Return false.
Proof.
  unfold below, lt_int; intros Hv H.
  destruct (numeric_compare v z Hv) as [c E]; rewrite E in *; simpl.
  destruct c as [[]|]; try reflexivity. congruence.
Qed.

Lemma gt_int_true (v : value) (z : Z) : above v z -> gt_int v z = Return true.
Proof. unfold above, gt_int; intros ->; reflexivity. Qed.

Lemma gt_int_false (v : value) (z : Z) :
  numeric v -> ~ above v z -> gt_int v z = Return false.
Proof.
  unfold above, gt_int; intros Hv H.
  destruct (numeric_compare v z Hv) as [c E]; rewrite E in *; simpl.
  destruct c as [[]|]; try reflexivity. congruence.
Qed.

Lemma resolve_first (pre post : dict) (k : str) (a b : Z) (v : value) :
  numeric v ->
  (forall k' a' b', In (k', (a', b')) pre -> ~ inside a' v b') ->
  inside a v b ->
  resolve (pre ++ (k, (a, b)) :: post) v = Return (VStr k).
Proof.
  intros Hv H Hin. unfold resolve.
  rewrite (scan_first pre post k a b v Hv H Hin). reflexivity.
Qed.

Lemma resolve_outside (d : dict) (v : value) (m M : Z) :
  numeric v ->
  is_min m (all_values_of d) -> is_max M (all_values_of d) ->
  (forall k a b, In (k, (a, b)) d -> ~ inside a v b) ->
  resolve d v =
    if eq_int v m then Return (VStr (lit "1.1"))
    else lt <- lt_int v m ;;
         if lt then Return (VStr (lit "left"))
         else gt <- gt_int v M ;;
              if gt then Return (VStr (lit "right")) else Return VNone.
Proof.
  intros Hv Hm HM H. unfold resolve.
  rewrite (scan_outside d v Hv H); simpl.
  rewrite (py_min_is_min m _ Hm); simpl.
  destruct (eq_int v m); [reflexivity|].
  destruct (lt_int v m) as [[]| |]; simpl; try reflexivity.
  rewrite (py_max_is_max M _ HM); reflexivity.
Qed.

Lemma resolve_min (d : dict) (v : value) (m : Z) :
  numeric v -> is_min m (all_values_of d) -> equals v m ->
  resolve d v = Return (VStr (lit "1.1")).
Proof.
  intros Hv Hm He.
  destruct (all_values_max d m Hm) as (M & HM & _).
  rewrite (resolve_outside d v m M Hv Hm HM).
  - rewrite eq_int_true by assumption; reflexivity.
  - intros k a b F [Ha _]. revert Ha.
    apply (not_above_ge v m a Hv); [right; assumption|].
    apply Hm. apply (in_all_values d k a b F).
Qed.

Lemma resolve_left (d : dict) (v : value) (m : Z) :
  numeric v -> is_min m (all_values_of d) -> below v m ->
  resolve d v = Return (VStr (lit "left")).
Proof.
  intros Hv Hm Hb.
  destruct (all_values_max d m Hm) as (M & HM & _).
  rewrite (resolve_outside d v m M Hv Hm HM).
  - rewrite eq_int_false by (unfold equals, below in *; congruence).
    rewrite lt_int_true by assumption; reflexivity.
  - intros k a b F [Ha _]. revert Ha.
    apply (not_above_ge v m a Hv); [left; assumption|].
    apply Hm. apply (in_all_values d k a b F).
Qed.

Lemma resolve_right (d : dict) (v : value) (M : Z) :
  numeric v -> is_max M (all_values_of d) -> above v M ->
  resolve d v = Return (VStr (lit "right")).
Proof.
  intros Hv HM Ha.
  destruct (is_max_min _ M HM) as (m & Hm & Hle).
  pose proof (above_le v M m Hv Ha Hle) as Ham.
  rewrite (resolve_outside d v m M Hv Hm HM).
  - rewrite eq_int_false by (unfold equals, above in *; congruence).
    rewrite lt_int_false by (auto; unfold below, above in *; congruence).
    simpl. rewrite gt_int_true by assumption; reflexivity.
  - intros k a b F [_ Hb].
    assert (Hab : above v b).
    { apply (above_le v M b Hv Ha). apply HM. apply (in_all_values d k a b F). }
    unfold below, equals, above in *. destruct Hb; congruence.
Qed.

Lemma resolve_gap (d : dict) (v : value) (m M : Z) :
  numeric v ->
  is_min m (all_values_of d) -> is_max M (all_values_of d) ->
  (forall k a b, In (k, (a, b)) d -> ~ inside a v b) ->
  ~ equals v m -> ~ below v m -> ~ above v M ->
  resolve d v = Return VNone.
Proof.
  intros Hv Hm HM H He Hb Ha.
  rewrite (resolve_outside d v m M Hv Hm HM H).
  rewrite eq_int_false, lt_int_false by assumption; simpl.
  rewrite gt_int_false by assumption; reflexivity.
Qed.

Lemma resolve_empty (v : value) : resolve [] v = Raise ValueError.
Proof. reflexivity. Qed.

Lemma find_interest_area_numeric (positions : str) (d : dict) (v : value) :
  numeric v -> Ast.literal_eval positions = Some d ->
  find_interest_area positions v = resolve d v.
Proof.
  intros Hv E. unfold find_interest_area.
  rewrite numeric_not_dot by assumption. rewrite E; reflexivity.
Qed.

(** ** Reading back what [json.dumps] wrote *)

Module RoundTrip.

Import Json Ast.

Lemma read_digits_digits (u : uint) (rest : str) :
  stops_digits rest -> read_digits (digits u ++ rest) = (u, rest).
Proof.
  intros H; induction u; simpl; try (rewrite IHu; reflexivity).
  destruct rest as [|c rest]; simpl in *; [reflexivity|].
  rewrite H; reflexivity.
Qed.

Lemma nzhead_shape (d : uint) :
  match nzhead d with D0 _ => False | _ => True end.
Proof. induction d; simpl; auto. Qed.

Lemma canonical_unorm (d : uint) : canonical (unorm d) = true.
Proof.
  unfold unorm. pose proof (nzhead_shape d) as H.
  destruct (nzhead d); try reflexivity. destruct H.
Qed.

Lemma canonical_to_uint (p : positive) : canonical (Pos.to_uint p) = true.
Proof.
  pose proof (DecimalPos.Unsigned.to_of (Pos.to_uint p)) as H.
  rewrite DecimalPos.Unsigned.of_to in H; simpl in H.
  rewrite H. apply canonical_unorm.
Qed.

Lemma of_uint_to_uint (p : positive) : Z.of_uint (Pos.to_uint p) = Z.pos p.
Proof.
  unfold Z.of_uint. rewrite DecimalPos.Unsigned.of_to; reflexivity.
Qed.

Lemma unsigned_digits (p : positive) (rest : str) :
  stops_digits rest ->
  unsigned (digits (Pos.to_uint p) ++ rest) = Some (Z.pos p, rest).
Proof.
  intros H. unfold unsigned. rewrite read_digits_digits by assumption.
  rewrite canonical_to_uint, of_uint_to_uint; reflexivity.
Qed.

Lemma parse_int_str_of_int (z : Z) (rest : str) :
  stops_digits rest -> parse_int (str_of_int z ++ rest) = Some (z, rest).
Proof.
  intros H. unfold str_of_int. destruct z as [|p|p]; simpl Z.to_int; cbv iota.
  - simpl. unfold unsigned; simpl.
    destruct rest as [|c rest]; simpl in *; [reflexivity|].
    rewrite H; reflexivity.
  - unfold parse_int.
    pose proof (unsigned_digits p rest H) as U.
    destruct (digits (Pos.to_uint p) ++ rest) as [|c s] eqn:E;
      [discriminate U|].
    destruct (N.eqb_spec c 45) as [->|_]; [|exact U]. exfalso.
    destruct (digits (Pos.to_uint p)) as [|c' s'] eqn:E'.
    + apply (DecimalPos.Unsigned.to_uint_nonnil p).
      apply digits_inj; exact E'.
    + simpl in E; injection E as -> _.
      apply (digits_not_minus (Pos.to_uint p) s'); exact E'.
  - simpl. rewrite unsigned_digits by assumption; reflexivity.
Qed.

Lemma escape_plain (c : char) : plain c = true -> escape c = [c].
Proof.
  unfold plain, escape, quote, backslash; intros H.
  apply andb_true_iff in H as [H H4]. apply andb_true_iff in H as [H H3].
  apply andb_true_iff in H as [H1 H2].
  apply negb_true_iff in H3, H4. rewrite H3, H4, H1, H2.
  apply N.leb_le in H1.
  rewrite !(proj2 (N.eqb_neq c _)) by lia. reflexivity.
Qed.

Lemma flat_map_escape (k : str) :
  forallb plain k = true -> flat_map escape k = k.
Proof.
  induction k as [|c k IH]; simpl; [reflexivity|].
  intros H; apply andb_true_iff in H as [Hc Hk].
  rewrite escape_plain, IH by assumption. reflexivity.
Qed.

Lemma read_plain_plain (k rest : str) :
  forallb plain k = true -> read_plain (k ++ quote :: rest) = Some (k, rest).
Proof.
  induction k as [|c k IH]; simpl; intros H; [reflexivity|].
  apply andb_true_iff in H as [Hc Hk]. rewrite Hc, IH by assumption.
    unfold plain in Hc. apply andb_true_iff in Hc as [Hc _].
    apply andb_true_iff in Hc as [_ Hc]. apply negb_true_iff in Hc.
    rewrite Hc; reflexivity.
Qed.

Lemma parse_str_dumps_str (k rest : str) :
  forallb plain k = true -> parse_str (dumps_str k ++ rest) = Some (k, rest).
Proof.
  intros H. unfold parse_str, dumps_str. rewrite flat_map_escape by assumption.
  simpl. rewrite <- app_assoc. apply read_plain_plain; assumption.
Qed.

Lemma str_of_int_head (z : Z) (rest : str) :
  exists c s, str_of_int z ++ rest = c :: s /\ c <> 32%N.
Proof.
  pose proof (str_of_int_chars z) as F.
  destruct (str_of_int z) as [|c s] eqn:E.
  - exfalso. unfold str_of_int in E. destruct z as [|p|p]; simpl in E;
      try discriminate.
    apply (DecimalPos.Unsigned.to_uint_nonnil p), digits_inj; exact E.
  - exists c, (s ++ rest); split; [reflexivity|].
    inversion F as [|? ? [->|D]]; [discriminate|].
    unfold is_digit in D; lia.
Qed.

Lemma skip_blanks_solid (c : char) (s : str) :
  c <> 32%N -> skip_blanks (c :: s) = c :: s.
Proof. intros H; simpl. rewrite (proj2 (N.eqb_neq c 32) H); reflexivity. Qed.

Lemma skip_blanks_int (z : Z) (rest : str) :
  skip_blanks (str_of_int z ++ rest) = str_of_int z ++ rest.
Proof.
  destruct (str_of_int_head z rest) as (c & s & -> & H).
  apply skip_blanks_solid; exact H.
Qed.

Lemma dumps_pair_app (a b : Z) (rest : str) :
  dumps_pair (a, b) ++ rest
  = 91%N :: str_of_int a ++ 44%N :: 32%N :: str_of_int b ++ 93%N :: rest.
Proof.
  unfold dumps_pair; simpl. rewrite <- !app_assoc; simpl.
  rewrite <- !app_assoc; reflexivity.
Qed.

Lemma parse_pair_dumps_pair (v : Z * Z) (rest : str) :
  parse_pair (dumps_pair v ++ rest) = Some (v, rest).
Proof.
  destruct v as [a b]. rewrite dumps_pair_app. unfold parse_pair.
  rewrite N.eqb_refl.
  rewrite skip_blanks_int, parse_int_str_of_int by reflexivity.
  rewrite skip_blanks_solid by discriminate.
  cbn [expect]. rewrite N.eqb_refl.
  change (skip_blanks (32%N :: ?s)) with (skip_blanks s).
  rewrite skip_blanks_int, parse_int_str_of_int by reflexivity.
  rewrite skip_blanks_solid by discriminate.
  cbn [expect]. rewrite N.eqb_refl. reflexivity.
Qed.

Lemma parse_item_dumps_item (kv : str * (Z * Z)) (rest : str) :
  forallb plain (fst kv) = true ->
  parse_item (dumps_item kv ++ rest) = Some (kv, rest).
Proof.
  destruct kv as [k v]; simpl fst; intros H. unfold parse_item, dumps_item.
  simpl fst; simpl snd. rewrite <- !app_assoc.
  rewrite parse_str_dumps_str by assumption.
  change (lit ": " ++ ?s) with (58%N :: 32%N :: s).
  rewrite skip_blanks_solid by discriminate. cbn [expect].
  rewrite N.eqb_refl.
  change (skip_blanks (32%N :: ?s)) with (skip_blanks s).
  destruct v as [a b]. rewrite dumps_pair_app.
  rewrite skip_blanks_solid by discriminate.
  rewrite <- dumps_pair_app, parse_pair_dumps_pair. reflexivity.
Qed.

Lemma dumps_items_cons (kv kv' : str * (Z * Z)) (d : dict) :
  dumps_items (kv :: kv' :: d)
  = dumps_item kv ++ 44%N :: 32%N :: dumps_items (kv' :: d).
Proof. reflexivity. Qed.

Lemma dumps_items_head (kv : str * (Z * Z)) (d : dict) (rest : str) :
  exists s, dumps_items (kv :: d) ++ rest = quote :: s.
Proof.
  destruct d as [|kv' d]; [|rewrite dumps_items_cons];
    unfold dumps_item, dumps_str; simpl; eauto.
Qed.

Lemma parse_items_dumps_items (d : dict) :
  forall (kv : str * (Z * Z)) (fuel : nat) (acc : dict) (rest : str),
    (List.length d < fuel)%nat ->
    forallb (fun k => forallb plain k) (keys (kv :: d)) = true ->
    parse_items fuel (dumps_items (kv :: d) ++ 125%N :: rest) acc
    = Some (fold_left store (kv :: d) acc, rest).
Proof.
  induction d as [|kv' d IH]; intros kv fuel acc rest Hf Hk;
    (destruct fuel as [|fuel]; [inversion Hf|]);
    simpl in Hk; apply andb_true_iff in Hk as [Hk Hd].
  - simpl dumps_items. cbn [parse_items].
    rewrite parse_item_dumps_item by assumption.
    rewrite skip_blanks_solid by discriminate. reflexivity.
  - rewrite dumps_items_cons.
    specialize (IH kv' fuel (store acc kv) rest).
    destruct (dumps_items_head kv' d (125%N :: rest)) as [s E].
    remember (dumps_items (kv' :: d)) as items eqn:Ei.
    cbn [parse_items]. rewrite <- app_assoc.
    rewrite parse_item_dumps_item by assumption.
    rewrite <- !app_comm_cons.
    rewrite skip_blanks_solid by discriminate.
    change ((44 =? 44)%N) with true; cbv iota.
    change (skip_blanks (32%N :: ?s)) with (skip_blanks s).
    rewrite E, skip_blanks_solid by discriminate. rewrite <- E.
    apply IH; [simpl in Hf; lia | exact Hd].
Qed.

Lemma dumps_items_length (d : dict) :
  (List.length d <= List.length (dumps_items d))%nat.
Proof.
  induction d as [|kv d IH]; [simpl; lia|].
  destruct d as [|kv' d].
  - unfold dumps_items, dumps_item, dumps_str; simpl. lia.
  - rewrite dumps_items_cons. unfold dumps_item, dumps_str.
    simpl List.length in *. rewrite !length_app. simpl List.length. lia.
Qed.

Lemma fold_store_fresh (d acc : dict) :
  NoDup (keys (acc ++ d)) -> fold_left store d acc = acc ++ d.
Proof.
  revert acc; induction d as [|[k v] d IH]; intros acc H; simpl.
  - rewrite app_nil_r; reflexivity.
  - unfold store at 2; simpl. rewrite dict_set_fresh.
    + rewrite IH; rewrite <- app_assoc; [reflexivity | exact H].
    + unfold keys in *. rewrite map_app in H; simpl in H.
      apply NoDup_remove_2 in H. intros F; apply H.
      apply in_or_app; left; exact F.
Qed.

(** A dictionary with distinct plain keys comes back as it was written. *)
Lemma literal_eval_dumps (d : dict) :
  forallb (fun k => forallb plain k) (keys d) = true ->
  NoDup (keys d) ->
  literal_eval (dumps d) = Some d.
Proof.
  intros Hk Hn. unfold literal_eval, dumps. cbn [expect].
  change ((123 =? 123)%N) with true; cbv iota.
  destruct d as [|kv d]; [reflexivity|].
  destruct (dumps_items_head kv d [125%N]) as [s E].
  rewrite E, skip_blanks_solid by discriminate.
  change ((quote =? 125)%N) with false; cbv iota. rewrite <- E.
  rewrite parse_items_dumps_items; [| |exact Hk].
  - rewrite fold_store_fresh; [reflexivity | exact Hn].
  - pose proof (dumps_items_length (kv :: d)) as L.
    simpl List.length in *. rewrite length_app. simpl List.length. lia.
Qed.

(** The labels are plain and distinct. *)
Lemma label_plain (region index : Z) :
  forallb plain (label region index) = true.
Proof.
  assert (P : forall z, forallb plain (str_of_int z) = true).
  { intros z. apply forallb_forall. intros c Hc.
    pose proof (str_of_int_chars z) as F. rewrite Forall_forall in F.
    destruct (F c Hc) as [->|D]; [reflexivity|].
    unfold is_digit in D. unfold plain, quote, backslash.
    rewrite !andb_true_iff, !negb_true_iff, !N.leb_le, !N.eqb_neq. lia. }
  unfold label. rewrite forallb_app; simpl. rewrite !P; reflexivity.
Qed.

Lemma number_plain (words : list str) (region index : Z) :
  forallb (fun k => forallb plain k) (map fst (number region index words))
  = true.
Proof.
  revert index; induction words as [|w words IH]; intros index; simpl;
    [reflexivity|]. rewrite label_plain, IH; reflexivity.
Qed.

Lemma number_NoDup (words : list str) (region index : Z) :
  NoDup (map fst (number region index words)).
Proof.
  revert index; induction words as [|w words IH]; intros index; simpl;
    constructor; [|apply IH].
  intros F. apply number_labels in F. destruct F as (j & Hj & E).
  apply label_inj in E. lia.
Qed.

Lemma region_words_apart (region region' : Z) (text text' : cell) (l : str) :
  region <> region' ->
  In l (map fst (region_words region text)) ->
  ~ In l (map fst (region_words region' text')).
Proof.
  unfold region_words. intros N F F'.
  apply number_labels in F, F'.
  destruct F as (j & _ & ->), F' as (j' & _ & E).
  apply label_inj in E. lia.
Qed.

Lemma sentence_plain (r : row) :
  forallb (fun k => forallb plain k) (map fst (sentence r)) = true.
Proof.
  unfold sentence, region_words.
  rewrite !map_app, !forallb_app, !number_plain. reflexivity.
Qed.

Lemma sentence_NoDup (r : row) : NoDup (map fst (sentence r)).
Proof.
  unfold sentence. rewrite !map_app.
  repeat (apply NoDup_app; try apply number_NoDup);
    intros l F F'; repeat (apply in_app_or in F' as [F'|F']);
    (eapply region_words_apart; [|exact F|exact F']; lia).
Qed.

End RoundTrip.

Lemma literal_eval_fill_word_labels (r : row) :
  Ast.literal_eval (fill_word_labels r) = Some (build_word_labels r).
Proof.
  unfold fill_word_labels. apply RoundTrip.literal_eval_dumps;
    rewrite build_word_labels_spec; unfold spec_word_positions;
    rewrite keys_intervals.
  - apply RoundTrip.sentence_plain.
  - apply RoundTrip.sentence_NoDup.
Qed.

(** ** The left edge of a builder's map *)

Lemma all_values_in (d : dict) (x : Z) :
  In x (all_values_of d) ->
  exists k a b, In (k, (a, b)) d /\ (x = a \/ x = b).
Proof.
  unfold all_values_of, values. rewrite in_flat_map.
  intros ([a b] & Hin & Hx). apply in_map_iff in Hin.
  destruct Hin as ([k [a' b']] & E & Hin); simpl in E; inversion E; subst.
  exists k, a, b. split; [exact Hin|]. simpl in Hx. intuition.
Qed.

Lemma build_word_labels_first (r : row) (w : str) (ws : list str) :
  split (str_of_cell (beginning r)) = w :: ws ->
  exists rest,
    build_word_labels r = (lit "1.1", (Offset, Offset + width w 0)) :: rest.
Proof.
  intros H. rewrite build_word_labels_spec.
  unfold spec_word_positions, sentence. unfold region_words at 1.
  rewrite H. simpl. eexists; reflexivity.
Qed.

Lemma build_word_labels_min (r : row) :
  build_word_labels r <> [] ->
  is_min Offset (all_values_of (build_word_labels r)).
Proof.
  intros Hne.
  assert (Hord : forall k a b,
             In (k, (a, b)) (build_word_labels r) -> Offset <= a /\ a < b).
  { intros k a b H. apply in_split in H. destruct H as (pre & post & E).
    rewrite build_word_labels_spec in E.
    destruct (intervals_ordered _ _ _ (sentence_nonempty r) (Z.le_refl 0)
                _ _ _ _ _ E) as (Hc & Hab & _). lia. }
  split.
  - destruct (build_word_labels r) as [|[k [a b]] d] eqn:E; [congruence|].
    assert (a = Offset).
    { rewrite build_word_labels_spec in E.
      apply (intervals_first (sentence r) Offset 0 k a b).
      unfold spec_word_positions in E; rewrite E; reflexivity. }
    subst a. simpl. left; reflexivity.
  - intros x Hx. apply all_values_in in Hx.
    destruct Hx as (k & a & b & Hin & Hx).
    destruct (Hord _ _ _ Hin). lia.
Qed.

(** ** The claims *)

(** C1, as stated: on the sample row the word "1.2" would get the interval
    (295, 323).  The builder gives it 14 * (3 + 1) = 56 pixels, so the
    interval ends at 351. *)
Lemma C1_sample_interval_differs :
  dict_get (lit "1.2") (build_word_labels sample_row) <> Some (295, 323).
Proof. vm_compute. discriminate. Qed.

(** C1, amended: for every row the builder's dictionary is the list of the
    words of regions 1 to 4 in order, each with the interval that starts at
    the running cursor and is [PPC * (len word + flag)] wide, the flag being
    0 for the first word overall and 1 afterwards.  On the sample row "1.1"
    gets (281, 295) and "1.2" gets (295, 351), and so on to "4.3"; the
    fixations 290 and 295 resolve to "1.1" and 296 to "1.2". *)
Theorem C1_builder_intervals :
  (forall r, build_word_labels r = intervals Offset 0 (sentence r))
  /\ build_word_labels sample_row
     = [(lit "1.1", (281, 295)); (lit "1.2", (295, 351));
        (lit "1.3", (351, 407)); (lit "2.1", (407, 449));
        (lit "2.2", (449, 491)); (lit "3.1", (491, 589));
        (lit "4.1", (589, 645)); (lit "4.2", (645, 743));
        (lit "4.3", (743, 827))]
  /\ dict_get (lit "1.1") (build_word_labels sample_row) = Some (281, 295)
  /\ dict_get (lit "1.2") (build_word_labels sample_row) = Some (295, 351)
  /\ find_interest_area (fill_word_labels sample_row) (VInt 290)
     = Return (VStr (lit "1.1"))
  /\ find_interest_area (fill_word_labels sample_row) (VInt 295)
     = Return (VStr (lit "1.1"))
  /\ find_interest_area (fill_word_labels sample_row) (VInt 296)
     = Return (VStr (lit "1.2")).
Proof.
  split; [exact build_word_labels_spec|].
  repeat split; vm_compute; reflexivity.
Qed.

(** C2: in the builder's dictionary, whose entries are in processing order,
    the end of each interval is the start of the next, the first interval
    starts at [Offset], and no interval is empty. *)
Theorem C2_intervals_abut (r : row) :
  keys (build_word_labels r) = map fst (sentence r)
  /\ (forall i k a b k' a' b',
        nth_error (build_word_labels r) i = Some (k, (a, b)) ->
        nth_error (build_word_labels r) (S i) = Some (k', (a', b')) ->
        b = a')
  /\ (forall k a b,
        nth_error (build_word_labels r) 0 = Some (k, (a, b)) -> a = Offset)
  /\ (forall k a b, In (k, (a, b)) (build_word_labels r) -> a < b).
Proof.
  rewrite build_word_labels_spec; unfold spec_word_positions.
  split; [apply keys_intervals|].
  split; [intros i k a b k' a' b'; apply intervals_abut|].
  split; [intros k a b; apply intervals_first|].
  intros k a b H. apply in_split in H. destruct H as (pre & post & E).
  destruct (intervals_ordered _ _ _ (sentence_nonempty r) (Z.le_refl 0)
              _ _ _ _ _ E) as (_ & Hab & _).
  exact Hab.
Qed.

Lemma C2_intervals_abut_sample : 295 = 295 /\ 281 = Offset /\ 281 < 295.
Proof.
  destruct (C2_intervals_abut sample_row) as (_ & H1 & H2 & H3).
  split; [|split].
  - apply (H1 0%nat (lit "1.1") 281 295 (lit "1.2") 295 351); reflexivity.
  - apply (H2 (lit "1.1") 281 295); reflexivity.
  - apply (H3 (lit "1.1")). left; reflexivity.
Defined.

(** Discharges an order fact between constants. *)
Ltac order_const :=
  unfold inside, above, below, equals; vm_compute; intuition discriminate.

(** Discharges [is_min] and [is_max] on a concrete dictionary. *)
Ltac endpoint_const :=
  split;
  [ vm_compute; auto 20
  | let x := fresh "x" in
    let H := fresh "H" in
    intros x H; vm_compute in H; intuition (subst; lia) ].

Lemma gap_map_outside (k : str) (a b : Z) :
  In (k, (a, b)) gap_map -> ~ inside a (VInt 15) b.
Proof.
  intros [E|[E|[]]]; inversion E; subst; order_const.
Qed.

(** C3, as stated: the fixation 15 lies in the gap between the intervals
    (0, 10) and (20, 30), off every boundary case, and the resolver returns
    [None], not a marker. *)
Lemma C3_gap_is_silent :
  Ast.literal_eval gap_positions = Some gap_map
  /\ is_min 0 (all_values_of gap_map) /\ is_max 30 (all_values_of gap_map)
  /\ (forall k a b, In (k, (a, b)) gap_map -> ~ inside a (VInt 15) b)
  /\ ~ equals (VInt 15) 0 /\ ~ below (VInt 15) 0 /\ ~ above (VInt 15) 30
  /\ ~ explicit_marker (find_interest_area gap_positions (VInt 15)).
Proof.
  split; [reflexivity|]. split; [endpoint_const|]. split; [endpoint_const|].
  split; [exact gap_map_outside|]. repeat split; try order_const.
  intros [s H]; vm_compute in H; discriminate.
Qed.

(** C3, amended: on a numeric fixation that lies outside every interval, is
    not equal to the smallest endpoint, not below it and not above the
    largest one, the resolver returns [None] and raises nothing. *)
Theorem C3_gap_returns_none (positions : str) (d : dict) (v : value)
  (m M : Z) :
  Ast.literal_eval positions = Some d ->
  numeric v ->
  is_min m (all_values_of d) -> is_max M (all_values_of d) ->
  (forall k a b, In (k, (a, b)) d -> ~ inside a v b) ->
  ~ equals v m -> ~ below v m -> ~ above v M ->
  find_interest_area positions v = Return VNone.
Proof.
  intros E Hv Hm HM H He Hb Ha.
  rewrite (find_interest_area_numeric positions d v Hv E).
  apply (resolve_gap d v m M); assumption.
Qed.

Lemma C3_gap_returns_none_sample :
  find_interest_area gap_positions (VInt 15) = Return VNone.
Proof.
  apply (C3_gap_returns_none gap_positions gap_map (VInt 15) 0 30).
  - reflexivity.
  - exact I.
  - endpoint_const.
  - endpoint_const.
  - exact gap_map_outside.
  - order_const.
  - order_const.
  - order_const.
Defined.

(** A [nan] fixation falls through every test, also on a builder's map. *)
Example nan_fixation_returns_none :
  find_interest_area (fill_word_labels sample_row) (VFloat NaN) = Return VNone.
Proof. reflexivity. Qed.

(** C4, as stated: a missing cell is not treated as an empty region.  Its
    text is "nan", and the builder enters the word "1.1" with the interval
    (281, 323) and moves the cursor to 323: a word is added, and the cursor
    advances. *)
Lemma C4_missing_region_adds_word :
  word_labels (word_labeller 1 CNaN initial) = [(lit "1.1", (281, 323))]
  /\ last_word_ending_pos (word_labeller 1 CNaN initial) = 323
  /\ word_labels (word_labeller 1 CNaN initial) <> word_labels initial
  /\ last_word_ending_pos (word_labeller 1 CNaN initial)
     <> last_word_ending_pos initial.
Proof.
  split; [reflexivity|]. split; [reflexivity|].
  split; vm_compute; discriminate.
Qed.

Lemma region_words_blank (region : Z) (text : cell) :
  forallb is_space (str_of_cell text) = true -> region_words region text = [].
Proof.
  intros H. unfold region_words. apply split_nil in H. rewrite H; reflexivity.
Qed.

(** C4, amended: a region whose text is empty or made of white space only
    is an empty region: the builder adds no word for it and leaves the
    cursor (and the flag) where they were, so the map of the row is the one
    the other regions alone give: their intervals are unaffected. *)
Theorem C4_blank_region :
  (forall region text st,
      forallb is_space (str_of_cell text) = true ->
      word_labeller region text st = st)
  /\ (forall r,
        forallb is_space (str_of_cell (beginning r)) = true ->
        build_word_labels r
        = intervals Offset 0
            (region_words 2 (pretarget r) ++ region_words 3 (target_word r)
             ++ region_words 4 (ending r)))
  /\ (forall r,
        forallb is_space (str_of_cell (pretarget r)) = true ->
        build_word_labels r
        = intervals Offset 0
            (region_words 1 (beginning r) ++ region_words 3 (target_word r)
             ++ region_words 4 (ending r)))
  /\ (forall r,
        forallb is_space (str_of_cell (target_word r)) = true ->
        build_word_labels r
        = intervals Offset 0
            (region_words 1 (beginning r) ++ region_words 2 (pretarget r)
             ++ region_words 4 (ending r)))
  /\ (forall r,
        forallb is_space (str_of_cell (ending r)) = true ->
        build_word_labels r
        = intervals Offset 0
            (region_words 1 (beginning r) ++ region_words 2 (pretarget r)
             ++ region_words 3 (target_word r))).
Proof.
  split.
  { intros region text st H. unfold word_labeller.
    apply split_nil in H. rewrite H; reflexivity. }
  repeat split; intros r H; rewrite build_word_labels_spec;
    unfold spec_word_positions, sentence;
    rewrite (region_words_blank _ _ H); rewrite ?app_nil_r; reflexivity.
Qed.

Lemma C4_blank_region_sample :
  word_labeller 2 (CStr (lit "  ")) initial = initial
  /\ build_word_labels
       {| beginning := CStr (lit "I did");
          pretarget := CStr (lit "   ");
          target_word := CStr (lit "school");
          ending := CStr (lit "") |}
     = [(lit "1.1", (281, 295)); (lit "1.2", (295, 351));
        (lit "3.1", (351, 449))].
Proof.
  destruct C4_blank_region as (H1 & _ & H3 & _ & _). split.
  - apply H1. reflexivity.
  - rewrite H3; reflexivity.
Defined.

(** C5: on a numeric fixation the resolver returns the label of the first
    interval with [x_min < fixation <= x_max].  On a builder's map a
    fixation on the right edge of a word's interval resolves to that word,
    and a fixation on the left offset is inside no interval. *)
Theorem C5_first_interval :
  (forall positions pre k a b post v,
      Ast.literal_eval positions = Some (pre ++ (k, (a, b)) :: post) ->
      numeric v ->
      (forall k' a' b', In (k', (a', b')) pre -> ~ inside a' v b') ->
      inside a v b ->
      find_interest_area positions v = Return (VStr k))
  /\ (forall r k a b,
        In (k, (a, b)) (build_word_labels r) ->
        find_interest_area (fill_word_labels r) (VInt b) = Return (VStr k))
  /\ (forall r k a b,
        In (k, (a, b)) (build_word_labels r) -> ~ inside a (VInt Offset) b).
Proof.
  split; [|split].
  - intros positions pre k a b post v E Hv H Hin.
    rewrite (find_interest_area_numeric positions _ v Hv E).
    apply resolve_first; assumption.
  - intros r k a b H.
    rewrite (find_interest_area_numeric _ _ (VInt b) I
               (literal_eval_fill_word_labels r)).
    apply in_split in H. destruct H as (pre & post & E). rewrite E.
    rewrite build_word_labels_spec in E.
    destruct (intervals_ordered _ _ _ (sentence_nonempty r) (Z.le_refl 0)
                _ _ _ _ _ E) as (_ & Hab & Hpre).
    apply resolve_first; [exact I| |].
    + intros k' a' b' F [_ Hb]. destruct (Hpre _ _ _ F) as (_ & _ & Hle).
      rewrite below_int, equals_int in Hb. lia.
    + unfold inside. rewrite above_int, below_int, equals_int. lia.
  - intros r k a b H [Ha _].
    apply in_split in H. destruct H as (pre & post & E).
    rewrite build_word_labels_spec in E.
    destruct (intervals_ordered _ _ _ (sentence_nonempty r) (Z.le_refl 0)
                _ _ _ _ _ E) as (Hc & _ & _).
    rewrite above_int in Ha. lia.
Qed.

Lemma C5_first_interval_sample :
  find_interest_area gap_positions (VFloat (Finite (45 # 2)))
  = Return (VStr (lit "1.2"))
  /\ find_interest_area (fill_word_labels sample_row) (VInt 295)
     = Return (VStr (lit "1.1"))
  /\ ~ inside 281 (VInt Offset) 295.
Proof.
  destruct C5_first_interval as (H1 & H2 & H3). split; [|split].
  - apply (H1 gap_positions [(lit "1.1", (0, 10))] (lit "1.2") 20 30 []).
    + reflexivity.
    + exact I.
    + intros k a b [E|[]]; inversion E; subst; order_const.
    + order_const.
  - apply (H2 sample_row (lit "1.1") 281 295). left; reflexivity.
  - apply (H3 sample_row (lit "1.1") 281 295). left; reflexivity.
Defined.

(** C6: on a position map that is not empty, a numeric fixation equal to
    the smallest endpoint resolves to "1.1".  On the map of a row whose
    beginning region has a word, "1.1" is the label of the first word, its
    interval starts at [Offset], the smallest endpoint, and a fixation
    there resolves to it. *)
Theorem C6_minimum_endpoint :
  (forall positions d v m,
      Ast.literal_eval positions = Some d ->
      numeric v ->
      is_min m (all_values_of d) ->
      equals v m ->
      find_interest_area positions v = Return (VStr (lit "1.1")))
  /\ (forall r w ws,
        split (str_of_cell (beginning r)) = w :: ws ->
        hd_error (build_word_labels r)
        = Some (lit "1.1", (Offset, Offset + width w 0))
        /\ is_min Offset (all_values_of (build_word_labels r))
        /\ find_interest_area (fill_word_labels r) (VInt Offset)
           = Return (VStr (lit "1.1"))).
Proof.
  assert (G : forall positions d v m,
             Ast.literal_eval positions = Some d ->
             numeric v ->
             is_min m (all_values_of d) ->
             equals v m ->
             find_interest_area positions v = Return (VStr (lit "1.1"))).
  { intros positions d v m E Hv Hm He.
    rewrite (find_interest_area_numeric positions d v Hv E).
    apply (resolve_min d v m); assumption. }
  split; [exact G|].
  intros r w ws H.
  destruct (build_word_labels_first r w ws H) as [rest E].
  assert (Hm : is_min Offset (all_values_of (build_word_labels r)))
    by (apply build_word_labels_min; rewrite E; discriminate).
  split; [rewrite E; reflexivity|]. split; [exact Hm|].
  apply (G _ _ (VInt Offset) Offset (literal_eval_fill_word_labels r) I Hm).
  apply equals_int; reflexivity.
Qed.

Lemma C6_minimum_endpoint_sample :
  find_interest_area gap_positions (VFloat (Finite (0 # 1)))
  = Return (VStr (lit "1.1"))
  /\ hd_error (build_word_labels sample_row)
     = Some (lit "1.1", (Offset, Offset + width (lit "I") 0))
  /\ is_min Offset (all_values_of (build_word_labels sample_row))
  /\ find_interest_area (fill_word_labels sample_row) (VInt Offset)
     = Return (VStr (lit "1.1")).
Proof.
  destruct C6_minimum_endpoint as [H1 H2]. split.
  - apply (H1 gap_positions gap_map _ 0).
    + reflexivity.
    + exact I.
    + endpoint_const.
    + order_const.
  - apply (H2 sample_row (lit "I") [lit "did"; lit "not"]). reflexivity.
Defined.

(** C7: on a position map that is not empty, a numeric fixation below the
    smallest endpoint resolves to "left" and one above the largest endpoint
    resolves to "right". *)
Theorem C7_left_right (positions : str) (d : dict) (v : value) :
  Ast.literal_eval positions = Some d ->
  numeric v ->
  (forall m, is_min m (all_values_of d) -> below v m ->
             find_interest_area positions v = Return (VStr (lit "left")))
  /\ (forall M, is_max M (all_values_of d) -> above v M ->
                find_interest_area positions v = Return (VStr (lit "right"))).
Proof.
  intros E Hv. rewrite (find_interest_area_numeric positions d v Hv E).
  split.
  - intros m Hm Hb. apply (resolve_left d v m); assumption.
  - intros M HM Ha. apply (resolve_right d v M); assumption.
Qed.

Lemma C7_left_right_sample :
  find_interest_area (fill_word_labels sample_row) (VInt 100)
  = Return (VStr (lit "left"))
  /\ find_interest_area (fill_word_labels sample_row)
       (VFloat (Finite (1655 # 2)))
     = Return (VStr (lit "right")).
Proof.
  split.
  - apply (proj1 (C7_left_right (fill_word_labels sample_row)
                    (build_word_labels sample_row) (VInt 100)
                    eq_refl I) 281).
    + endpoint_const.
    + order_const.
  - apply (proj2 (C7_left_right (fill_word_labels sample_row)
                    (build_word_labels sample_row)
                    (VFloat (Finite (1655 # 2))) eq_refl I) 827).
    + endpoint_const.
    + order_const.
Defined.

(** C8: whatever the positions argument, parsable or not, the fixation "."
    comes back unchanged; the positions are not read: a text the parser
    rejects gives the same result. *)
Theorem C8_dot_passes_through :
  (forall positions,
      find_interest_area positions (VStr (lit ".")) = Return (VStr (lit ".")))
  /\ Ast.literal_eval (lit "{") = None
  /\ find_interest_area (lit "{") (VStr (lit ".")) = Return (VStr (lit ".")).
Proof.
  split; [|split].
  - intros positions. unfold find_interest_area, eq_str.
    rewrite str_eqb_refl. reflexivity.
  - reflexivity.
  - reflexivity.
Qed.

(** C9: the text written by the builder is read back by the resolver's
    parser as the dictionary the builder made: same labels, in the same
    order, with the same endpoints. *)
Theorem C9_round_trip (r : row) :
  Ast.literal_eval (fill_word_labels r) = Some (build_word_labels r).
Proof. exact (literal_eval_fill_word_labels r). Qed.

(** C10: when the four regions of a row split to no word the position map
    is empty, and the resolver raises [ValueError] on every numeric
    fixation. *)
Theorem C10_empty_map_raises (r : row) (v : value) :
  split (str_of_cell (beginning r)) = [] ->
  split (str_of_cell (pretarget r)) = [] ->
  split (str_of_cell (target_word r)) = [] ->
  split (str_of_cell (ending r)) = [] ->
  numeric v ->
  build_word_labels r = []
  /\ fill_word_labels r = lit "{}"
  /\ find_interest_area (fill_word_labels r) v = Raise ValueError.
Proof.
  intros H1 H2 H3 H4 Hv.
  assert (E : build_word_labels r = []).
  { unfold build_word_labels, word_labeller.
    rewrite H1, H2, H3, H4; reflexivity. }
  split; [exact E|]. unfold fill_word_labels. rewrite E.
  split; [reflexivity|].
  rewrite (find_interest_area_numeric (Json.dumps []) [] v Hv eq_refl).
  reflexivity.
Qed.

Lemma C10_empty_map_raises_sample :
  build_word_labels blank_row = []
  /\ fill_word_labels blank_row = lit "{}"
  /\ find_interest_area (fill_word_labels blank_row) (VInt 300)
     = Raise ValueError.
Proof.
  apply (C10_empty_map_raises blank_row (VInt 300));
    solve [reflexivity | exact I].
Defined.

(** * Beyond the claims *)

(** ** The name of the output file *)

Lemma split_on_from_app (sep : char) (a b piece : str) :
  split_on_from sep piece (a ++ sep :: b)
  = split_on_from sep piece a ++ split_on_from sep [] b.
Proof.
  revert piece; induction a as [|c a IH]; intros piece; simpl.
  - rewrite N.eqb_refl; reflexivity.
  - destruct (c =? sep)%N; [rewrite IH; reflexivity | apply IH].
Qed.

Lemma split_on_from_whole (sep : char) (s piece : str) :
  ~ In sep s -> split_on_from sep piece s = [piece ++ s].
Proof.
  revert piece; induction s as [|c s IH]; intros piece H; simpl.
  - rewrite app_nil_r; reflexivity.
  - rewrite (proj2 (N.eqb_neq c sep))
      by (intros ->; apply H; left; reflexivity).
    rewrite IH by (intros F; apply H; right; exact F).
    rewrite <- app_assoc; reflexivity.
Qed.

Lemma split_on_from_nonempty (sep : char) (s piece : str) :
  split_on_from sep piece s <> [].
Proof.
  revert piece; induction s as [|c s IH]; intros piece; simpl;
    [discriminate|]. destruct (c =? sep)%N; [discriminate | apply IH].
Qed.

(** Joining the pieces with the separator gives the text back. *)
Lemma join_split_on_from (sep : char) (s piece : str) :
  join [sep] (split_on_from sep piece s) = piece ++ s.
Proof.
  revert piece; induction s as [|c s IH]; intros piece; simpl.
  - rewrite app_nil_r; reflexivity.
  - destruct (N.eqb_spec c sep) as [->|N].
    + pose proof (split_on_from_nonempty sep s []) as Hne.
      specialize (IH []). simpl in IH.
      destruct (split_on_from sep [] s) as [|x l]; [congruence|].
      change (join [sep] (piece :: x :: l))
        with (piece ++ [sep] ++ join [sep] (x :: l)).
      rewrite IH. reflexivity.
    + rewrite IH, <- app_assoc. reflexivity.
Qed.

(** X10: the name of the output file is the input name without its last
    extension, followed by "_With_IA.tsv"; earlier dots stay. *)
Theorem X10_output_filename_strips_extension (stem ext : str) :
  ~ In 46%N ext ->
  output_filename (stem ++ 46%N :: ext) = stem ++ lit "_With_IA.tsv".
Proof.
  intros H. unfold output_filename, split_on.
  rewrite split_on_from_app, (split_on_from_whole _ ext [] H).
  rewrite removelast_last.
  change (lit ".") with [46%N]. rewrite join_split_on_from. reflexivity.
Qed.

Lemma X10_output_filename_sample :
  output_filename FILENAME = lit "RLGL_FR_reg2_With_IA.tsv"
  /\ output_filename (lit "run.v2.xlsx") = lit "run.v2_With_IA.tsv".
Proof.
  split.
  - apply (X10_output_filename_strips_extension (lit "RLGL_FR_reg2")
             (lit "xlsx")).
    vm_compute. intuition discriminate.
  - apply (X10_output_filename_strips_extension (lit "run.v2") (lit "xlsx")).
    vm_compute. intuition discriminate.
Defined.

(** X11: a name without a dot is dropped whole: the output file is
    "_With_IA.tsv" for every such name. *)
Theorem X11_output_filename_without_dot (name : str) :
  ~ In 46%N name -> output_filename name = lit "_With_IA.tsv".
Proof.
  intros H. unfold output_filename, split_on.
  rewrite (split_on_from_whole _ name [] H). reflexivity.
Qed.

Lemma X11_output_filename_without_dot_sample :
  output_filename (lit "RLGL_FR_reg2") = lit "_With_IA.tsv".
Proof.
  apply X11_output_filename_without_dot. vm_compute. intuition discriminate.
Defined.

(** ** Positions in closed form *)

Lemma len_app (a b : str) : len (a ++ b) = len a + len b.
Proof. unfold len. rewrite length_app. lia. Qed.

Lemma len_join_blank (w : str) (rest : list str) :
  len (join (lit " ") (w :: rest)) = len w + spaced rest.
Proof.
  revert w; induction rest as [|x rest IH]; intros w.
  - simpl. lia.
  - change (join (lit " ") (w :: x :: rest))
      with (w ++ lit " " ++ join (lit " ") (x :: rest)).
    rewrite !len_app, IH. simpl spaced. change (len (lit " ")) with 1. lia.
Qed.

Lemma advance_flag (ws : list (str * str)) (c f : Z) :
  snd (advance c f ws) = match ws with [] => f | _ :: _ => 1 end.
Proof.
  revert c f; induction ws as [|[l w] ws IH]; intros c f; simpl;
    [reflexivity|]. rewrite IH. destruct ws; reflexivity.
Qed.

Lemma advance_spaced (ws : list (str * str)) (c : Z) :
  fst (advance c 1 ws) = c + PPC * spaced (map snd ws).
Proof.
  revert c; induction ws as [|[l w] ws IH]; intros c;
    cbn [advance map snd spaced fst].
  - lia.
  - rewrite IH. unfold width. lia.
Qed.

Lemma advance_join (ws : list (str * str)) (c : Z) :
  fst (advance c 0 ws) = c + PPC * len (join (lit " ") (map snd ws)).
Proof.
  destruct ws as [|[l w] ws].
  - cbn [advance map fst join]. change (len []) with 0. lia.
  - cbn [advance map snd]. rewrite advance_spaced, len_join_blank.
    unfold width. lia.
Qed.

Lemma dict_get_here (d1 d2 : dict) (k : str) (v : Z * Z) :
  ~ In k (keys d1) -> dict_get k (d1 ++ (k, v) :: d2) = Some v.
Proof.
  induction d1 as [|[k' v'] d1 IH]; simpl; intros H.
  - rewrite str_eqb_refl; reflexivity.
  - rewrite str_eqb_neq by (intros ->; apply H; left; reflexivity).
    apply IH. intros F; apply H; right; exact F.
Qed.

(** X1: the interval of a word starts where the words before it, joined by
    single blanks, end, and ends where the sentence up to and including the
    word ends, at [PPC] pixels a character from [Offset]: the blank before
    a word belongs to the word. *)
Theorem X1_word_interval (r : row) (pre post : list (str * str))
  (l w : str) :
  sentence r = pre ++ (l, w) :: post ->
  dict_get l (build_word_labels r)
  = Some (Offset + PPC * len (join (lit " ") (map snd pre)),
          Offset + PPC * len (join (lit " ") (map snd pre ++ [w]))).
Proof.
  intros E. rewrite build_word_labels_spec. unfold spec_word_positions.
  pose proof (RoundTrip.sentence_NoDup r) as Hn.
  rewrite E in *. rewrite intervals_app. cbn [intervals].
  rewrite dict_get_here.
  - f_equal. f_equal; [apply advance_join|].
    replace (map snd pre ++ [w]) with (map snd (pre ++ [(l, w)]))
      by (rewrite map_app; reflexivity).
    rewrite <- advance_join, advance_app. reflexivity.
  - rewrite keys_intervals. rewrite map_app in Hn; simpl in Hn.
    apply NoDup_remove_2 in Hn. intros F; apply Hn.
    apply in_or_app; left; exact F.
Qed.

Lemma X1_word_interval_sample :
  dict_get (lit "2.1") (build_word_labels sample_row)
  = Some (Offset + PPC * len (lit "I did not"),
          Offset + PPC * len (lit "I did not go")).
Proof.
  apply (X1_word_interval sample_row
           [(lit "1.1", lit "I"); (lit "1.2", lit "did");
            (lit "1.3", lit "not")]
           [(lit "2.2", lit "to"); (lit "3.1", lit "school");
            (lit "4.1", lit "and"); (lit "4.2", lit "stayed");
            (lit "4.3", lit "home.")]
           (lit "2.1") (lit "go")).
  reflexivity.
Defined.

(** ** The labels of a map *)

Lemma number_keys (words : list str) (region index g j : Z) :
  In (label g j) (map fst (number region index words))
  <-> g = region /\ index <= j < index + Z.of_nat (List.length words).
Proof.
  revert index; induction words as [|w words IH]; intros index.
  - simpl. lia.
  - cbn [number map fst In List.length]. rewrite IH, Nat2Z.inj_succ. split.
    + intros [E|H]; [apply label_inj in E|]; lia.
    + intros [-> H]. destruct (Z.eq_dec j index) as [->|N];
        [left; reflexivity | right; lia].
Qed.

Lemma sentence_labels (r : row) (k : str) :
  In k (map fst (sentence r)) -> exists g j, k = label g j.
Proof.
  unfold sentence, region_words. rewrite !map_app, !in_app_iff.
  intros [H|[H|[H|H]]]; apply number_labels in H;
    destruct H as (j & _ & ->); eauto.
Qed.

Lemma sentence_keys (r : row) (g j : Z) :
  In (label g j) (map fst (sentence r)) <-> 1 <= j <= word_count r g.
Proof.
  unfold sentence, region_words, word_count.
  rewrite !map_app, !in_app_iff, !number_keys.
  destruct (Z.eqb_spec g 1); [lia|]. destruct (Z.eqb_spec g 2); [lia|].
  destruct (Z.eqb_spec g 3); [lia|]. destruct (Z.eqb_spec g 4); lia.
Qed.

Lemma length_number (words : list str) (region index : Z) :
  List.length (number region index words) = List.length words.
Proof.
  revert index; induction words as [|w words IH]; intros index; simpl;
    [reflexivity|]. rewrite IH; reflexivity.
Qed.

(** X2: the keys of a row's map are the labels "region.index" with the
    region from 1 to 4 and the index from 1 to the number of words of the
    region, each once; no index is 0. *)
Theorem X2_labels_of_map (r : row) :
  (forall k, In k (keys (build_word_labels r))
             <-> exists region index,
                   k = label region index
                   /\ 1 <= region <= 4
                   /\ 1 <= index <= word_count r region)
  /\ NoDup (keys (build_word_labels r))
  /\ Z.of_nat (List.length (build_word_labels r))
     = word_count r 1 + word_count r 2 + word_count r 3 + word_count r 4.
Proof.
  rewrite build_word_labels_spec. unfold spec_word_positions.
  rewrite keys_intervals. split; [|split].
  - intros k. split.
    + intros H. destruct (sentence_labels r k H) as (g & j & ->).
      apply sentence_keys in H. exists g, j.
      split; [reflexivity|]. split; [|exact H].
      unfold word_count in H.
      destruct (Z.eqb_spec g 1); [lia|]. destruct (Z.eqb_spec g 2); [lia|].
      destruct (Z.eqb_spec g 3); [lia|]. destruct (Z.eqb_spec g 4); lia.
    + intros (g & j & -> & _ & H). apply sentence_keys; exact H.
  - apply RoundTrip.sentence_NoDup.
  - rewrite <- (length_map fst), keys_intervals, length_map.
    unfold sentence, region_words, word_count; simpl.
    rewrite !length_app, !length_number. lia.
Qed.

Lemma label_chars (g j : Z) :
  Forall (fun c => c = 45%N \/ c = 46%N \/ is_digit c) (label g j).
Proof.
  unfold label. apply Forall_app; split; [|constructor; [auto|]];
    (eapply Forall_impl; [|apply str_of_int_chars]); intros c [H|H]; auto.
Qed.

Lemma label_long (g j : Z) : (2 <= List.length (label g j))%nat.
Proof.
  unfold label.
  destruct (RoundTrip.str_of_int_head g []) as (c & s & E & _).
  rewrite app_nil_r in E. rewrite E, length_app. simpl. lia.
Qed.

Lemma keys_not_sentinel (r : row) (k : str) :
  In k (keys (build_word_labels r)) ->
  k <> lit "left" /\ k <> lit "right" /\ k <> lit ".".
Proof.
  rewrite build_word_labels_spec. unfold spec_word_positions.
  rewrite keys_intervals. intros H.
  destruct (sentence_labels r k H) as (g & j & ->).
  pose proof (label_chars g j) as F. pose proof (label_long g j) as L.
  repeat split; intros E; rewrite E in *.
  - inversion F as [|? ? [D|[D|D]]]; try discriminate.
    unfold is_digit in D; vm_compute in D; intuition discriminate.
  - inversion F as [|? ? [D|[D|D]]]; try discriminate.
    unfold is_digit in D; vm_compute in D; intuition discriminate.
  - vm_compute in L. lia.
Qed.

(** X7: no key of a row's map is "left", "right" or ".": a sentinel in the
    output is never the label of a word. *)
Theorem X7_sentinels_are_not_labels (r : row) (k : str) :
  In k (keys (build_word_labels r)) ->
  k <> lit "left" /\ k <> lit "right" /\ k <> lit ".".
Proof. exact (keys_not_sentinel r k). Qed.

Lemma X7_sentinels_are_not_labels_sample :
  lit "4.3" <> lit "left" /\ lit "4.3" <> lit "right"
  /\ lit "4.3" <> lit ".".
Proof.
  apply (X7_sentinels_are_not_labels sample_row (lit "4.3")).
  vm_compute. auto 20.
Defined.

Lemma X2_labels_of_map_sample :
  In (label 4 3) (keys (build_word_labels sample_row))
  /\ ~ In (label 4 0) (keys (build_word_labels sample_row)).
Proof.
  destruct (X2_labels_of_map sample_row) as (H & _ & _). split.
  - apply H. exists 4, 3. repeat split; vm_compute; congruence.
  - intros F. apply H in F. destruct F as (g & j & E & _ & Hj).
    apply label_inj in E. lia.
Defined.

(** ** The two edges of a map *)

Lemma intervals_bounds (ws : list (str * str)) (c f : Z) :
  Forall word_nonempty ws -> 0 <= f ->
  forall k a b, In (k, (a, b)) (intervals c f ws) ->
                c <= a /\ a < b /\ b <= fst (advance c f ws).
Proof.
  revert c f; induction ws as [|[l w] ws IH]; intros c f Hw Hf k a b;
    cbn [intervals advance In]; [tauto|].
  inversion Hw as [|? ? Hw1 Hw2]; subst.
  pose proof (width_pos w f Hw1 Hf) as Hpos.
  assert (Hmono : c + width w f <= fst (advance (c + width w f) 1 ws)).
  { destruct ws as [|[l' w'] ws']; [simpl; lia|].
    assert (Hin : In (l', (c + width w f, c + width w f + width w' 1))
                    (intervals (c + width w f) 1 ((l', w') :: ws')))
      by (left; reflexivity).
    destruct (IH _ 1 Hw2 ltac:(lia) _ _ _ Hin). lia. }
  intros [E|H].
  - inversion E; subst. lia.
  - destruct (IH _ 1 Hw2 ltac:(lia) _ _ _ H). lia.
Qed.

Lemma intervals_last (ws : list (str * str)) (c f : Z) :
  ws <> [] ->
  exists k a, In (k, (a, fst (advance c f ws))) (intervals c f ws).
Proof.
  revert c f; induction ws as [|[l w] ws IH]; intros c f H; [congruence|].
  cbn [intervals advance]. destruct ws as [|p ws].
  - exists l, c. left; reflexivity.
  - destruct (IH (c + width w f) 1 ltac:(discriminate)) as (k & a & Hin).
    exists k, a. right; exact Hin.
Qed.

Lemma right_edge_advance (r : row) :
  right_edge r = fst (advance Offset 0 (sentence r)).
Proof. unfold right_edge, all_words. rewrite advance_join; reflexivity. Qed.

Lemma build_word_labels_max (r : row) :
  build_word_labels r <> [] ->
  is_max (right_edge r) (all_values_of (build_word_labels r)).
Proof.
  rewrite build_word_labels_spec, right_edge_advance.
  unfold spec_word_positions. intros Hne. split.
  - destruct (intervals_last (sentence r) Offset 0) as (k & a & Hin).
    + intros E; rewrite E in Hne; apply Hne; reflexivity.
    + apply (in_all_values _ k a _ Hin).
  - intros x Hx. apply all_values_in in Hx.
    destruct Hx as (k & a & b & Hin & Hx).
    destruct (intervals_bounds _ _ _ (sentence_nonempty r) (Z.le_refl 0)
                _ _ _ Hin). lia.
Qed.

(** X8: on the map of a row with a word the largest endpoint is the pixel
    where the sentence, joined by single blanks, ends; an integer fixation
    to the left of [Offset] resolves to "left" and one beyond that pixel to
    "right". *)
Theorem X8_edges_of_sentence (r : row) :
  build_word_labels r <> [] ->
  is_max (Offset + PPC * len (join (lit " ") (all_words r)))
    (all_values_of (build_word_labels r))
  /\ (forall x, x < Offset ->
        find_interest_area (fill_word_labels r) (VInt x)
        = Return (VStr (lit "left")))
  /\ (forall x, Offset + PPC * len (join (lit " ") (all_words r)) < x ->
        find_interest_area (fill_word_labels r) (VInt x)
        = Return (VStr (lit "right"))).
Proof.
  intros Hne. fold (right_edge r).
  pose proof (build_word_labels_min r Hne) as Hm.
  pose proof (build_word_labels_max r Hne) as HM.
  split; [exact HM|]. split; intros x Hx;
    rewrite (find_interest_area_numeric _ _ (VInt x) I
               (literal_eval_fill_word_labels r)).
  - apply (resolve_left _ (VInt x) Offset I Hm). apply below_int; exact Hx.
  - apply (resolve_right _ (VInt x) (right_edge r) I HM).
    apply above_int; exact Hx.
Qed.

Lemma X8_edges_of_sentence_sample :
  is_max (Offset + PPC * len (lit "I did not go to school and stayed home."))
    (all_values_of (build_word_labels sample_row))
  /\ find_interest_area (fill_word_labels sample_row) (VInt 280)
     = Return (VStr (lit "left"))
  /\ find_interest_area (fill_word_labels sample_row) (VInt 828)
     = Return (VStr (lit "right")).
Proof.
  destruct (X8_edges_of_sentence sample_row) as (H1 & H2 & H3).
  - vm_compute; discriminate.
  - split; [exact H1|]. split; [apply H2 | apply H3]; vm_compute; reflexivity.
Defined.

(** ** Regions and intervals *)

Lemma values_intervals (ws ws' : list (str * str)) (c f : Z) :
  map snd ws = map snd ws' ->
  values (intervals c f ws) = values (intervals c f ws').
Proof.
  revert ws' c f; induction ws as [|[l w] ws IH];
    intros [|[l' w'] ws'] c f E; simpl in E; try discriminate;
    [reflexivity|].
  injection E as -> E. cbn [intervals values map snd].
  f_equal. apply IH; exact E.
Qed.

(** X9: the intervals of a row depend on its words only, not on how the
    sentence is cut into regions: two rows with the same words in the same
    order get the same intervals in the same order. *)
Theorem X9_intervals_ignore_regions (r r' : row) :
  all_words r = all_words r' ->
  values (build_word_labels r) = values (build_word_labels r').
Proof.
  intros E. rewrite !build_word_labels_spec. apply values_intervals; exact E.
Qed.

Lemma X9_intervals_ignore_regions_sample :
  values (build_word_labels sample_row)
  = values (build_word_labels
              {| beginning := CStr (lit "I");
                 pretarget := CStr (lit "  did not   go to school ");
                 target_word := CStr (lit "");
                 ending := CStr (lit "and stayed home.") |}).
Proof.
  apply X9_intervals_ignore_regions. reflexivity.
Defined.

(** ** The resolver on a row's own map *)

Lemma ordered_cases (v : value) (z : Z) :
  ordered v -> below v z \/ equals v z \/ above v z.
Proof.
  unfold below, equals, above. intros [Hv Hn].
  destruct v as [| |x|[q| | |]]; simpl in *; try contradiction;
    try congruence; auto.
  - destruct (x ?= z); auto.
  - destruct (q ?= inject_Z z)%Q; auto.
Qed.

Lemma order_exclusive (v : value) (z : Z) :
  (below v z -> ~ equals v z /\ ~ above v z)
  /\ (equals v z -> ~ above v z).
Proof. unfold below, equals, above. repeat split; congruence. Qed.

Lemma resolve_inside (r : row) (k : str) (a b : Z) (v : value) :
  numeric v ->
  In (k, (a, b)) (build_word_labels r) ->
  inside a v b ->
  resolve (build_word_labels r) v = Return (VStr k).
Proof.
  intros Hv H Hin. apply in_split in H. destruct H as (pre & post & E).
  rewrite E. rewrite build_word_labels_spec in E.
  destruct (intervals_ordered _ _ _ (sentence_nonempty r) (Z.le_refl 0)
              _ _ _ _ _ E) as (_ & _ & Hpre).
  apply resolve_first; [exact Hv| |exact Hin].
  intros k' a' b' F [_ Hb]. destruct (Hpre _ _ _ F) as (_ & _ & Hle).
  destruct Hin as [Ha _]. revert Ha. apply (not_above_ge v b' a Hv Hb Hle).
Qed.

(** A fixation after the cursor and not after the last end is inside one
    of the intervals. *)
Lemma intervals_cover (ws : list (str * str)) (c f : Z) (v : value) :
  ordered v -> above v c -> ~ above v (fst (advance c f ws)) ->
  exists k a b, In (k, (a, b)) (intervals c f ws) /\ inside a v b.
Proof.
  intros Ho. revert c f; induction ws as [|[l w] ws IH]; intros c f Ha Hn;
    cbn [intervals advance fst] in *; [contradiction|].
  destruct (ordered_cases v (c + width w f) Ho) as [H|[H|H]].
  - exists l, c, (c + width w f). split; [left; reflexivity|].
    split; [exact Ha | left; exact H].
  - exists l, c, (c + width w f). split; [left; reflexivity|].
    split; [exact Ha | right; exact H].
  - destruct (IH _ 1 H Hn) as (k & a & b & Hin & Hi).
    exists k, a, b. split; [right; exact Hin | exact Hi].
Qed.

Lemma nan_outside (a b : Z) : ~ inside a (VFloat NaN) b.
Proof. intros [H _]. discriminate H. Qed.

Lemma resolve_nan (r : row) :
  build_word_labels r <> [] ->
  resolve (build_word_labels r) (VFloat NaN) = Return VNone.
Proof.
  intros Hne.
  apply (resolve_gap _ (VFloat NaN) Offset (right_edge r) I
           (build_word_labels_min r Hne) (build_word_labels_max r Hne));
    try (intros H; discriminate H).
  intros k a b _. apply nan_outside.
Qed.

(** The five ways a number is resolved against the map of a row with a
    word. *)
Lemma builder_cases (r : row) (v : value) :
  build_word_labels r <> [] -> numeric v ->
  (v = VFloat NaN /\ resolve (build_word_labels r) v = Return VNone)
  \/ (below v Offset
      /\ resolve (build_word_labels r) v = Return (VStr (lit "left")))
  \/ (equals v Offset
      /\ resolve (build_word_labels r) v = Return (VStr (lit "1.1")))
  \/ (above v (right_edge r)
      /\ resolve (build_word_labels r) v = Return (VStr (lit "right")))
  \/ (exists k a b,
         In (k, (a, b)) (build_word_labels r) /\ inside a v b
         /\ resolve (build_word_labels r) v = Return (VStr k)).
Proof.
  intros Hne Hv.
  pose proof (build_word_labels_min r Hne) as Hm.
  pose proof (build_word_labels_max r Hne) as HM.
  assert (D : v = VFloat NaN \/ ordered v).
  { unfold ordered. destruct v as [| |x|[q| | |]]; simpl in Hv;
      try contradiction; auto; right; split; auto; discriminate. }
  destruct D as [->|Ho].
  - left. split; [reflexivity | apply resolve_nan; exact Hne].
  - right. destruct (ordered_cases v Offset Ho) as [H|[H|H]].
    + left. split; [exact H|]. apply (resolve_left _ v Offset Hv Hm H).
    + right; left. split; [exact H|]. apply (resolve_min _ v Offset Hv Hm H).
    + right; right.
      destruct (ordered_cases v (right_edge r) Ho) as [H'|[H'|H']].
      * right.
        assert (Hn : ~ above v (fst (advance Offset 0 (sentence r)))).
        { rewrite <- right_edge_advance.
          apply (proj1 (order_exclusive v _)); exact H'. }
        destruct (intervals_cover (sentence r) Offset 0 v Ho H Hn)
          as (k & a & b & Hin & Hi).
        change (intervals Offset 0 (sentence r))
          with (spec_word_positions r) in Hin.
        rewrite <- build_word_labels_spec in Hin.
        exists k, a, b. split; [exact Hin|]. split; [exact Hi|].
        apply (resolve_inside r k a b v Hv Hin Hi).
      * right.
        assert (Hn : ~ above v (fst (advance Offset 0 (sentence r)))).
        { rewrite <- right_edge_advance.
          apply (proj2 (order_exclusive v _)); exact H'. }
        destruct (intervals_cover (sentence r) Offset 0 v Ho H Hn)
          as (k & a & b & Hin & Hi).
        change (intervals Offset 0 (sentence r))
          with (spec_word_positions r) in Hin.
        rewrite <- build_word_labels_spec in Hin.
        exists k, a, b. split; [exact Hin|]. split; [exact Hi|].
        apply (resolve_inside r k a b v Hv Hin Hi).
      * left. split; [exact H'|].
        apply (resolve_right _ v (right_edge r) Hv HM H').
Qed.

Lemma dict_in_once (d : dict) (k : str) (v v' : Z * Z) :
  NoDup (keys d) -> In (k, v) d -> In (k, v') d -> v = v'.
Proof.
  induction d as [|[k0 v0] d IH]; simpl; intros Hn H H'; [contradiction|].
  inversion Hn as [|? ? Hk Hd]; subst.
  destruct H as [E|H], H' as [E'|H'].
  - congruence.
  - inversion E; subst. exfalso; apply Hk.
    apply (in_map fst) in H'; exact H'.
  - inversion E'; subst. exfalso; apply Hk.
    apply (in_map fst) in H; exact H.
  - apply IH; assumption.
Qed.

Lemma build_word_labels_NoDup (r : row) : NoDup (keys (build_word_labels r)).
Proof.
  rewrite build_word_labels_spec. unfold spec_word_positions.
  rewrite keys_intervals. apply RoundTrip.sentence_NoDup.
Qed.

Lemma find_on_own_map (r : row) (v : value) :
  numeric v ->
  find_interest_area (fill_word_labels r) v = resolve (build_word_labels r) v.
Proof.
  intros Hv. apply find_interest_area_numeric; [exact Hv|].
  apply literal_eval_fill_word_labels.
Qed.

(** X3: on a row's own map a numeric fixation inside the interval of a
    word resolves to that word, whatever its place in the map; so a
    fixation is inside the interval of one word at most. *)
Theorem X3_inside_resolves_to_word (r : row) (v : value) (k : str)
  (a b : Z) :
  numeric v ->
  In (k, (a, b)) (build_word_labels r) ->
  inside a v b ->
  find_interest_area (fill_word_labels r) v = Return (VStr k)
  /\ forall k' a' b',
       In (k', (a', b')) (build_word_labels r) -> inside a' v b' ->
       (k', (a', b')) = (k, (a, b)).
Proof.
  intros Hv H Hin. rewrite (find_on_own_map r v Hv).
  pose proof (resolve_inside r k a b v Hv H Hin) as R.
  split; [exact R|]. intros k' a' b' H' Hin'.
  pose proof (resolve_inside r k' a' b' v Hv H' Hin') as R'.
  rewrite R in R'. injection R' as <-.
  rewrite (dict_in_once _ k (a, b) (a', b') (build_word_labels_NoDup r) H H').
  reflexivity.
Qed.

Lemma X3_inside_resolves_to_word_sample :
  find_interest_area (fill_word_labels sample_row) (VFloat (Finite (981 # 2)))
  = Return (VStr (lit "2.2"))
  /\ forall k' a' b',
       In (k', (a', b')) (build_word_labels sample_row) ->
       inside a' (VFloat (Finite (981 # 2))) b' ->
       (k', (a', b')) = (lit "2.2", (449, 491)).
Proof.
  apply (X3_inside_resolves_to_word sample_row _ (lit "2.2") 449 491).
  - exact I.
  - vm_compute. auto 20.
  - order_const.
Defined.

(** X4: on the map of a row with a word the resolver raises on no numeric
    fixation, and it returns [None] on a [nan] only: every other number
    resolves to a string. *)
Theorem X4_none_only_for_nan (r : row) (v : value) :
  build_word_labels r <> [] ->
  numeric v ->
  (exists x, find_interest_area (fill_word_labels r) v = Return x)
  /\ (find_interest_area (fill_word_labels r) v = Return VNone
      <-> v = VFloat NaN)
  /\ (v <> VFloat NaN ->
      exists s, find_interest_area (fill_word_labels r) v = Return (VStr s)).
Proof.
  intros Hne Hv. rewrite (find_on_own_map r v Hv).
  pose proof (resolve_nan r Hne) as Rn.
  destruct (builder_cases r v Hne Hv)
    as [[E R]|[[_ R]|[[_ R]|[[_ R]|(k & a & b & _ & _ & R)]]]];
    rewrite R; (split; [eauto|]);
    (split; [|intros N; solve [contradiction | eauto]]);
    split; intros H;
    try discriminate H; try exact E; try reflexivity;
    subst v; rewrite Rn in R; discriminate R.
Qed.

Lemma X4_none_only_for_nan_sample :
  (exists x,
      find_interest_area (fill_word_labels sample_row) (VFloat PosInf)
      = Return x)
  /\ (find_interest_area (fill_word_labels sample_row) (VFloat PosInf)
      = Return VNone
      <-> VFloat PosInf = VFloat NaN)
  /\ (VFloat PosInf <> VFloat NaN ->
      exists s,
        find_interest_area (fill_word_labels sample_row) (VFloat PosInf)
        = Return (VStr s)).
Proof.
  apply (X4_none_only_for_nan sample_row (VFloat PosInf)).
  - vm_compute; discriminate.
  - exact I.
Defined.

(** X14: on the map of a row with a word, "left" is returned for the
    numbers below [Offset] and for no other, and "right" for the numbers
    above the right edge of the sentence and for no other. *)
Theorem X14_sentinels_are_exact (r : row) (v : value) :
  build_word_labels r <> [] ->
  numeric v ->
  (find_interest_area (fill_word_labels r) v = Return (VStr (lit "left"))
   <-> below v Offset)
  /\ (find_interest_area (fill_word_labels r) v = Return (VStr (lit "right"))
      <-> above v (right_edge r)).
Proof.
  intros Hne Hv. rewrite (find_on_own_map r v Hv).
  pose proof (build_word_labels_min r Hne) as [_ Hmin].
  pose proof (build_word_labels_max r Hne) as [HMin HMax].
  assert (Hedge : Offset <= right_edge r).
  { apply all_values_in in HMin. destruct HMin as (k & a & b & Hin & _).
    destruct (in_all_values _ _ _ _ Hin) as [Ia Ib].
    specialize (Hmin _ Ia). specialize (HMax _ Ia). lia. }
  destruct (builder_cases r v Hne Hv)
    as [[E R]|[[C R]|[[C R]|[[C R]|(k & a & b & Hin & [Ca Cb] & R)]]]];
    rewrite R.
  - subst v. split; split; intros H; discriminate H.
  - split; split; intros H; try discriminate H; try reflexivity;
      try exact C.
    exfalso. pose proof (above_le v _ Offset Hv H Hedge) as A.
    unfold below, above in *; congruence.
  - split; split; intros H; try discriminate H.
    + unfold below, equals in *; congruence.
    + exfalso. pose proof (above_le v _ Offset Hv H Hedge) as A.
      unfold equals, above in *; congruence.
  - split; split; intros H; try discriminate H; try reflexivity;
      try exact C.
    exfalso. pose proof (above_le v _ Offset Hv C Hedge) as A.
    unfold below, above in *; congruence.
  - destruct (keys_not_sentinel r k) as (Nl & Nr & _);
      [apply (in_map fst) in Hin; exact Hin|].
    destruct (in_all_values _ _ _ _ Hin) as [Ia Ib].
    split; split; intros H; try (injection H as H; contradiction).
    + exfalso. pose proof (below_le v _ a Hv H (Hmin _ Ia)) as B.
      unfold below, above in *; congruence.
    + exfalso. revert H. apply (not_above_ge v b _ Hv Cb (HMax _ Ib)).
Qed.

Lemma X14_sentinels_are_exact_sample :
  (find_interest_area (fill_word_labels sample_row) (VInt 281)
   = Return (VStr (lit "left"))
   <-> below (VInt 281) Offset)
  /\ (find_interest_area (fill_word_labels sample_row) (VInt 281)
      = Return (VStr (lit "right"))
      <-> above (VInt 281) (right_edge sample_row)).
Proof.
  apply (X14_sentinels_are_exact sample_row (VInt 281)).
  - vm_compute; discriminate.
  - exact I.
Defined.

(** X5: a fixation that is a string other than "." or is [None] makes the
    resolver raise: [TypeError] at the first interval when the map has a
    word, [ValueError] at [min] when it has none. *)
Theorem X5_other_marker_raises (positions : str) (d : dict) (v : value) :
  Ast.literal_eval positions = Some d ->
  v = VNone \/ (exists s, v = VStr s /\ s <> lit ".") ->
  find_interest_area positions v
  = Raise match d with [] => ValueError | _ :: _ => TypeError end.
Proof.
  intros E H. unfold find_interest_area.
  assert (Hd : eq_str v (lit ".") = false).
  { destruct H as [->|(s & -> & N)]; [reflexivity|].
    simpl. apply str_eqb_neq; exact N. }
  rewrite Hd, E.
  destruct d as [|[k [a b]] d]; [reflexivity|].
  destruct H as [->|(s & -> & _)]; reflexivity.
Qed.

Lemma X5_other_marker_raises_sample :
  find_interest_area (fill_word_labels sample_row) (VStr (lit "NA"))
  = Raise TypeError.
Proof.
  apply (X5_other_marker_raises (fill_word_labels sample_row)
           (build_word_labels sample_row) (VStr (lit "NA"))).
  - reflexivity.
  - right. exists (lit "NA"). split; [reflexivity|]. vm_compute; discriminate.
Defined.

(** X6: when the beginning region of a row has no word and another region
    has one, a fixation on [Offset] resolves to "1.1" although the map has
    no such key. *)
Theorem X6_first_label_may_be_absent (r : row) :
  split (str_of_cell (beginning r)) = [] ->
  build_word_labels r <> [] ->
  find_interest_area (fill_word_labels r) (VInt Offset)
  = Return (VStr (lit "1.1"))
  /\ ~ In (lit "1.1") (keys (build_word_labels r)).
Proof.
  intros Hb Hne. split.
  - rewrite (find_on_own_map r (VInt Offset) I).
    apply (resolve_min _ (VInt Offset) Offset I (build_word_labels_min r Hne)).
    apply equals_int; reflexivity.
  - rewrite build_word_labels_spec. unfold spec_word_positions.
    rewrite keys_intervals. change (lit "1.1") with (label 1 1).
    rewrite sentence_keys. unfold word_count. simpl Z.eqb. cbv iota.
    rewrite Hb. simpl. lia.
Qed.

Lemma X6_first_label_may_be_absent_sample :
  find_interest_area (fill_word_labels headless_row) (VInt Offset)
  = Return (VStr (lit "1.1"))
  /\ ~ In (lit "1.1") (keys (build_word_labels headless_row)).
Proof.
  apply (X6_first_label_may_be_absent headless_row).
  - reflexivity.
  - vm_compute; discriminate.
Defined.

(** ** The whole table *)

Lemma find_own_cases (r : row) (v : value) :
  (resolvable r v
   /\ exists x, find_interest_area (fill_word_labels r) v = Return x)
  \/ (~ resolvable r v
      /\ exists e, find_interest_area (fill_word_labels r) v = Raise e).
Proof.
  assert (Hraise : eq_str v (lit ".") = false -> ~ numeric v ->
                   exists e, find_interest_area (fill_word_labels r) v
                             = Raise e).
  { intros Hd Hn. unfold find_interest_area.
    rewrite Hd, literal_eval_fill_word_labels.
    destruct (build_word_labels r) as [|[k [a b]] d]; [eexists; reflexivity|].
    destruct v as [| |x|f]; simpl in Hn; try tauto; eexists; reflexivity. }
  destruct v as [|s|x|f].
  - right. split; [|apply Hraise; simpl; tauto].
    intros [H|[H _]]; [discriminate H | exact H].
  - destruct (str_eqb s (lit ".")) eqn:E.
    + apply str_eqb_eq in E; subst s. left. split; [left; reflexivity|].
      eexists; reflexivity.
    + right. split; [|apply Hraise; simpl; tauto].
      intros [H|[H _]]; [|exact H]. injection H as ->.
      rewrite str_eqb_refl in E; discriminate E.
  - destruct (build_word_labels r) as [|p d] eqn:E.
    + right. split; [intros [H|[_ H]]; [discriminate H | congruence]|].
      rewrite (find_on_own_map r (VInt x) I), E. eexists; reflexivity.
    + left. split; [right; split; [exact I | rewrite E; discriminate]|].
      rewrite (find_on_own_map r (VInt x) I).
      assert (Hne : build_word_labels r <> []) by (rewrite E; discriminate).
      destruct (builder_cases r (VInt x) Hne I)
        as [[_ R]|[[_ R]|[[_ R]|[[_ R]|(k & a & b & _ & _ & R)]]]];
        rewrite R; eauto.
  - destruct (build_word_labels r) as [|p d] eqn:E.
    + right. split; [intros [H|[_ H]]; [discriminate H | congruence]|].
      rewrite (find_on_own_map r (VFloat f) I), E. eexists; reflexivity.
    + left. split; [right; split; [exact I | rewrite E; discriminate]|].
      rewrite (find_on_own_map r (VFloat f) I).
      assert (Hne : build_word_labels r <> []) by (rewrite E; discriminate).
      destruct (builder_cases r (VFloat f) Hne I)
        as [[_ R]|[[_ R]|[[_ R]|[[_ R]|(k & a & b & _ & _ & R)]]]];
        rewrite R; eauto.
Qed.

Lemma apply_add_positions (rows : list fixation_row) :
  apply add_positions rows
  = Return (map (fun r => (r, fill_word_labels (text r))) rows).
Proof.
  induction rows as [|r rows IH]; simpl; [reflexivity|].
  rewrite IH; reflexivity.
Qed.

Lemma apply_add_current (rows : list fixation_row) :
  Forall (fun r => resolvable (text r) (CURRENT_FIX_X r)) rows ->
  exists cs,
    apply add_current (map (fun r => (r, fill_word_labels (text r))) rows)
    = Return cs
    /\ Forall2 current_of rows cs.
Proof.
  induction 1 as [|r rows Hr _ IH]; [exists []; split; constructor|].
  destruct IH as (cs & E & F).
  destruct (find_own_cases (text r) (CURRENT_FIX_X r)) as [[_ [x Hx]]|[N _]];
    [|contradiction].
  exists (((r, fill_word_labels (text r)), x) :: cs). split.
  - cbn [map apply]. unfold add_current at 1; cbn [fst snd].
    rewrite Hx; cbn [bind]. rewrite E; reflexivity.
  - constructor; [split; [reflexivity | exact Hx] | exact F].
Qed.

Lemma apply_add_next (rows : list fixation_row)
  (cs : list (fixation_row * str * value)) :
  Forall2 current_of rows cs ->
  Forall (fun r => resolvable (text r) (NEXT_FIX_X r)) rows ->
  exists out, apply add_next cs = Return out /\ Forall2 labelled rows out.
Proof.
  induction 1 as [|r c rows cs [Hc Hx] _ IH]; intros Hn;
    [exists []; split; constructor|].
  inversion Hn as [|? ? Hr Hrows]; subst.
  destruct (IH Hrows) as (out & E & F).
  destruct (find_own_cases (text r) (NEXT_FIX_X r)) as [[_ [y Hy]]|[N _]];
    [|contradiction].
  destruct c as [[r' wp] x]; simpl in Hc, Hx; injection Hc as -> ->.
  eexists (_ :: out). split.
  - cbn [apply]. unfold add_next at 1; cbn [fst snd].
    rewrite Hy; cbn [bind]. rewrite E; reflexivity.
  - constructor; [|exact F]. repeat split; assumption.
Qed.

Lemma apply_add_current_raises (rows : list fixation_row) :
  Exists (fun r => ~ resolvable (text r) (CURRENT_FIX_X r)) rows ->
  exists e,
    apply add_current (map (fun r => (r, fill_word_labels (text r))) rows)
    = Raise e.
Proof.
  induction rows as [|r rows IH]; intros H; [inversion H|].
  cbn [map apply]. unfold add_current at 1; cbn [fst snd].
  destruct (find_own_cases (text r) (CURRENT_FIX_X r))
    as [[Hr [x Hx]]|[_ [e He]]].
  - rewrite Hx; cbn [bind].
    inversion H as [? ? Hn|? ? Hrest]; subst; [contradiction|].
    destruct (IH Hrest) as [e E]. rewrite E. exists e; reflexivity.
  - rewrite He. exists e; reflexivity.
Qed.

Lemma apply_add_next_raises (rows : list fixation_row)
  (cs : list (fixation_row * str * value)) :
  Forall2 current_of rows cs ->
  Exists (fun r => ~ resolvable (text r) (NEXT_FIX_X r)) rows ->
  exists e, apply add_next cs = Raise e.
Proof.
  induction 1 as [|r c rows cs [Hc Hx] _ IH]; intros H; [inversion H|].
  destruct c as [[r' wp] x]; simpl in Hc, Hx; injection Hc as -> ->.
  cbn [apply]. unfold add_next at 1; cbn [fst snd].
  destruct (find_own_cases (text r) (NEXT_FIX_X r))
    as [[Hr [y Hy]]|[_ [e He]]].
  - rewrite Hy; cbn [bind].
    inversion H as [? ? Hn|? ? Hrest]; subst; [contradiction|].
    destruct (IH Hrest) as [e E]. rewrite E. exists e; reflexivity.
  - rewrite He. exists e; reflexivity.
Qed.

Lemma resolvable_dec (r : row) (v : value) :
  resolvable r v \/ ~ resolvable r v.
Proof. destruct (find_own_cases r v) as [[H _]|[H _]]; auto. Qed.

Lemma all_or_some (rows : list fixation_row) (P : fixation_row -> Prop) :
  (forall r, P r \/ ~ P r) ->
  Forall P rows \/ Exists (fun r => ~ P r) rows.
Proof.
  intros D. induction rows as [|r rows [IH|IH]]; auto.
  destruct (D r); auto.
Qed.

(** X12: on a table with a row, when every fixation of every row is "." or
    a number on a row with a word, [main] writes "RLGL_FR_reg2_With_IA.tsv"
    with one output row for each input row, in order, each resolved
    against its own map. *)
Theorem X12_main_labels_every_row (RLGL : list fixation_row) :
  RLGL <> [] ->
  Forall row_ok RLGL ->
  exists out,
    main RLGL = Return (lit "RLGL_FR_reg2_With_IA.tsv", out)
    /\ Forall2 labelled RLGL out.
Proof.
  intros Hne Hok.
  assert (Hc : Forall (fun r => resolvable (text r) (CURRENT_FIX_X r)) RLGL)
    by (eapply Forall_impl; [|exact Hok]; intros r [H _]; exact H).
  assert (Hn : Forall (fun r => resolvable (text r) (NEXT_FIX_X r)) RLGL)
    by (eapply Forall_impl; [|exact Hok]; intros r [_ H]; exact H).
  destruct (apply_add_current RLGL Hc) as (cs & Ec & Fc).
  destruct (apply_add_next RLGL cs Fc Hn) as (out & En & Fn).
  exists out. split; [|exact Fn].
  unfold main. destruct RLGL as [|r rows]; [congruence|].
  rewrite apply_add_positions; cbn [bind].
  rewrite Ec; cbn [bind]. rewrite En; reflexivity.
Qed.

Lemma X12_main_labels_every_row_sample :
  exists out,
    main sample_table = Return (lit "RLGL_FR_reg2_With_IA.tsv", out)
    /\ Forall2 labelled sample_table out.
Proof.
  apply (X12_main_labels_every_row sample_table).
  - discriminate.
  - repeat (apply Forall_cons;
              [split;
               solve [ left; reflexivity
                     | right; split; [exact I | vm_compute; discriminate] ]
              |]).
    apply Forall_nil.
Defined.

(** X13: one row with a fixation its map cannot resolve, a number on a row
    without a word or an object that is neither "." nor a number, makes
    [main] raise: no output is written for any row. *)
Theorem X13_main_aborts_on_one_row (RLGL : list fixation_row) :
  Exists (fun r => ~ row_ok r) RLGL ->
  exists e, main RLGL = Raise e.
Proof.
  intros H.
  assert (Hne : RLGL <> []) by (intros ->; inversion H).
  assert (Hmain : main RLGL
                  = (current <- apply add_current
                        (map (fun r => (r, fill_word_labels (text r))) RLGL) ;;
                     next <- apply add_next current ;;
                     Return (output_filename FILENAME, next))).
  { unfold main. destruct RLGL as [|r rows]; [congruence|].
    rewrite apply_add_positions; reflexivity. }
  rewrite Hmain.
  destruct (all_or_some RLGL
              (fun r => resolvable (text r) (CURRENT_FIX_X r))
              (fun r => resolvable_dec (text r) (CURRENT_FIX_X r)))
    as [Hc|Hc].
  - destruct (apply_add_current RLGL Hc) as (cs & Ec & Fc).
    rewrite Ec; cbn [bind].
    destruct (apply_add_next_raises RLGL cs Fc) as [e E].
    + apply Exists_exists in H. destruct H as (r & Hin & Hr).
      apply Exists_exists. exists r. split; [exact Hin|].
      intros Hn. apply Hr. split; [|exact Hn].
      rewrite Forall_forall in Hc. apply Hc; exact Hin.
    + rewrite E. exists e; reflexivity.
  - destruct (apply_add_current_raises RLGL Hc) as [e E].
    rewrite E. exists e; reflexivity.
Qed.

Lemma X13_main_aborts_on_one_row_sample :
  exists e, main blank_table = Raise e.
Proof.
  apply (X13_main_aborts_on_one_row blank_table).
  apply Exists_cons_tl, Exists_cons_hd.
  intros [_ [H|[_ H]]]; [discriminate H | apply H; reflexivity].
Defined.

(** ** The resolver on any map *)

Lemma within_numeric (v : value) (a b : Z) :
  numeric v -> exists t, within a v b = Return t.
Proof.
  intros Hv. unfold within, gt_int, le_int.
  destruct (numeric_compare v a Hv) as [ca Ea].
  destruct (numeric_compare v b Hv) as [cb Eb].
  rewrite Ea; cbn [bind]. destruct ca as [[]|]; try (eexists; reflexivity).
  rewrite Eb; eexists; reflexivity.
Qed.

Lemma scan_numeric (d : dict) (v : value) :
  numeric v ->
  (exists k, scan d v = Return (Some k) /\ In k (keys d))
  \/ scan d v = Return None.
Proof.
  intros Hv. induction d as [|[k [a b]] d IH]; [right; reflexivity|].
  cbn [scan]. destruct (within_numeric v a b Hv) as [[] E]; rewrite E;
    cbn [bind].
  - left. exists k. split; [reflexivity | left; reflexivity].
  - destruct IH as [(k' & E' & Hin)|E']; [left | right; exact E'].
    exists k'. split; [exact E' | right; exact Hin].
Qed.

(** X15: on a numeric fixation the resolver raises on the empty map only;
    on any other map it returns a key of the map, "1.1", "left", "right" or
    [None]. *)
Theorem X15_numeric_outcomes (positions : str) (d : dict) (v : value) :
  Ast.literal_eval positions = Some d ->
  numeric v ->
  (d = [] /\ find_interest_area positions v = Raise ValueError)
  \/ (d <> []
      /\ exists x,
           find_interest_area positions v = Return x
           /\ (x = VNone
               \/ exists s,
                    x = VStr s
                    /\ (In s (keys d) \/ s = lit "1.1" \/ s = lit "left"
                        \/ s = lit "right"))).
Proof.
  intros E Hv. rewrite (find_interest_area_numeric positions d v Hv E).
  destruct d as [|[k0 [a0 b0]] d0] eqn:Ed; [left; split; reflexivity|].
  right. split; [discriminate|]. rewrite <- Ed. unfold resolve.
  destruct (scan_numeric d v Hv) as [(k & Es & Hin)|Es]; rewrite Es;
    cbn [bind].
  - exists (VStr k). split; [reflexivity|]. right. exists k. auto.
  - assert (Hm : exists m, py_min (all_values_of d) = Return m)
      by (rewrite Ed; eexists; reflexivity).
    assert (HM : exists M, py_max (all_values_of d) = Return M)
      by (rewrite Ed; eexists; reflexivity).
    destruct Hm as [m Hm], HM as [M HM]. rewrite Hm; cbn [bind].
    destruct (eq_int v m).
    + eexists; split; [reflexivity|]. right. eexists; split; [reflexivity|].
      auto.
    + unfold lt_int, gt_int.
      destruct (numeric_compare v m Hv) as [c Ec]. rewrite Ec; cbn [bind].
      destruct c as [[]|];
        try (rewrite HM; cbn [bind];
             destruct (numeric_compare v M Hv) as [c' Ec']; rewrite Ec';
             cbn [bind]; destruct c' as [[]|]);
        eexists; (split; [reflexivity|]); auto;
        right; eexists; (split; [reflexivity|]); auto.
Qed.

Lemma X15_numeric_outcomes_sample :
  (gap_map = []
   /\ find_interest_area gap_positions (VInt 25) = Raise ValueError)
  \/ (gap_map <> []
      /\ exists x,
           find_interest_area gap_positions (VInt 25) = Return x
           /\ (x = VNone
               \/ exists s,
                    x = VStr s
                    /\ (In s (keys gap_map) \/ s = lit "1.1"
                        \/ s = lit "left" \/ s = lit "right"))).
Proof.
  apply (X15_numeric_outcomes gap_positions gap_map (VInt 25)).
  - reflexivity.
  - exact I.
Defined.
